(** * pbratu: residual and Jacobian of the 2D p-Laplacian / Bratu problem

    Shallow embedding of [src/pbratu.c] (the callbacks [FormInitialGuess],
    [FormFunctionLocal], [FormJacobianLocal] and the closures [eta], [deta])
    together with the properties stated about them.

    Modelling conventions.
    - [PetscScalar] and [PetscReal] are the real numbers [R]: arithmetic is
      exact, as in the algebra the discretisation is derived with.  Rounding,
      underflow and overflow are outside this model; module [Double]
      evaluates [eta] over IEEE binary64 numbers where that matters.
    - [PetscInt] is [Z]; grid extents are far below the machine range.
    - A DMDA array [x[j][i]] (ghosted for reading) is a function
      [x j i : R] on all of [Z * Z]; an assignment [f[j][i] = v] is the
      pointwise update [store f j i v].
    - The PETSc matrix is seen through the calls made on it: every
      [MatSetValuesStencil] is recorded, in order, with its row, columns and
      values; [MatAssemblyBegin/End] and [MatSetOption] set flags.  Failures
      raised inside the matrix layer itself are outside this file.
    - [SETERRQ1] and [CHKERRQ] are an error monad over the matrix state. *)

From Stdlib Require Import Reals ZArith List Bool String Lia Lra.
From Stdlib Require PrimFloat.
Import ListNotations.

Local Open Scope Z_scope.
Local Open Scope R_scope.

(** ** Data *)

(** The application context, [AppCtx] (lines 56-61). *)
Record AppCtx : Type := mkAppCtx {
  lambda  : R;   (* Bratu parameter *)
  p       : R;   (* exponent in the p-Laplacian *)
  epsilon : R;   (* regularisation *)
  jtype   : Z    (* what type of Jacobian to assemble *)
}.

(** The fields of [DMDALocalInfo] the callbacks read: global sizes and the
    corners of the locally owned box. *)
Record DMDALocalInfo : Type := mkInfo {
  mx : Z; my : Z;
  xs : Z; ys : Z;
  xm : Z; ym : Z
}.

(** A two dimensional DMDA array, indexed [x j i] as [x[j][i]] in C. *)
Definition Field : Type := Z -> Z -> R.

(** [a[j][i] = v] *)
Definition store (a : Field) (j i : Z) (v : R) : Field :=
  fun j' i' => if ((j' =? j) && (i' =? i))%Z then v else a j' i'.

(** ** Loops *)

(** [for (k = lo; k < lo + n; k++) s = body k s], unrolled on the number of
    iterations still to run. *)
Fixpoint for_count {St : Type} (n : nat) (k : Z) (body : Z -> St -> St) (s : St) : St :=
  match n with
  | O => s
  | S n' => for_count n' (k + 1)%Z body (body k s)
  end.

Definition for_range {St : Type} (lo n : Z) (body : Z -> St -> St) (s : St) : St :=
  for_count (Z.to_nat n) lo body s.

(** ** The C library and PETSc macros *)

Definition PetscSqr (a : R) : R := a * a.

Definition PetscExpScalar (a : R) : R := exp a.

(** [pow] of the C library on real arguments: [pow(x,0)] is [1] for every
    [x]; for [0 < x] it is [exp (y ln x)]; [pow(0,y)] is [0] for [0 < y].
    At the arguments left C has no finite real value ([pow(0,y)] is [+inf]
    for [y < 0]; [x < 0] is never produced by [eta], whose base is a sum of
    squares) and the model returns [0].  The base is positive as soon as
    [epsilon <> 0], and the exponent is [0] when [p = 2]; a statement about
    the value of [eta] or [deta] carries one of the two as a hypothesis. *)
Definition pow (x y : R) : R :=
  if Req_dec_T y 0 then 1
  else if Rlt_dec 0 x then Rpower x y
  else 0.

(** ** The diffusivity model (lines 253-261) *)

Definition eta (ctx : AppCtx) (ux uy : R) : R :=
  pow (PetscSqr (epsilon ctx) + 0.5 * (ux * ux + uy * uy)) (0.5 * (p ctx - 2)).

Definition deta (ctx : AppCtx) (ux uy : R) : R :=
  if Req_dec_T (p ctx) 2
  then 0
  else pow (PetscSqr (epsilon ctx) + 0.5 * (ux * ux + uy * uy)) (0.5 * (p ctx - 4))
       * 0.5 * (p ctx - 2).

(** ** Grid geometry *)

(** The test [i == 0 || j == 0 || i == mx-1 || j == my-1] of all three
    callbacks. *)
Definition on_boundary (Mx My j i : Z) : bool :=
  ((i =? 0) || (j =? 0) || (i =? Mx - 1) || (j =? My - 1))%Z.

(** ** The initial guess (lines 202-251) *)

Definition InitialGuess_point (Mx My j i : Z) : R :=
  if on_boundary Mx My j i then 0
  else
    let xx := 2 * IZR i / IZR (Mx - 1) - 1 in
    let yy := 2 * IZR j / IZR (My - 1) - 1 in
    (1 - xx * xx) * (1 - yy * yy).

(** [dm] is represented by the sizes and corners [DMDAGetInfo] and
    [DMDAGetCorners] return for it. *)
Definition FormInitialGuess (dm : DMDALocalInfo) (x : Field) : Field :=
  for_range (ys dm) (ym dm)
    (fun j x =>
       for_range (xs dm) (xm dm)
         (fun i x => store x j i (InitialGuess_point (mx dm) (my dm) j i)) x)
    x.

(** ** Edge gradients

    Lines 291-298 of [FormFunctionLocal] and 357-364 of [FormJacobianLocal]
    are the same eight declarations; they are embedded once. *)
Record EdgeGrad : Type := mkEdgeGrad {
  ux_E : R; uy_E : R;
  ux_W : R; uy_W : R;
  ux_N : R; uy_N : R;
  ux_S : R; uy_S : R
}.

Definition edge_gradients (dhx dhy : R) (x : Field) (j i : Z) : EdgeGrad :=
  {| ux_E := dhx * (x j (i+1)%Z - x j i);
     uy_E := 0.25 * dhy * (x (j+1)%Z i + x (j+1)%Z (i+1)%Z - x (j-1)%Z i - x (j-1)%Z (i+1)%Z);
     ux_W := dhx * (x j i - x j (i-1)%Z);
     uy_W := 0.25 * dhy * (x (j+1)%Z (i-1)%Z + x (j+1)%Z i - x (j-1)%Z (i-1)%Z - x (j-1)%Z i);
     ux_N := 0.25 * dhx * (x j (i+1)%Z + x (j+1)%Z (i+1)%Z - x j (i-1)%Z - x (j+1)%Z (i-1)%Z);
     uy_N := dhy * (x (j+1)%Z i - x j i);
     ux_S := 0.25 * dhx * (x (j-1)%Z (i+1)%Z + x j (i+1)%Z - x (j-1)%Z (i-1)%Z - x j (i-1)%Z);
     uy_S := dhy * (x j i - x (j-1)%Z i) |}.

(** ** The residual (lines 270-314) *)

(** The value assigned to [f[j][i]] by one pass of the loop body. *)
Definition FormFunction_point (info : DMDALocalInfo) (x : Field) (user : AppCtx)
    (j i : Z) : R :=
  let hx  := 1 / IZR (mx info - 1) in
  let hy  := 1 / IZR (my info - 1) in
  let dhx := 1 / hx in
  let dhy := 1 / hy in
  let sc  := hx * hy * lambda user in
  if on_boundary (mx info) (my info) j i then
    x j i
  else
    let u   := x j i in
    let g   := edge_gradients dhx dhy x j i in
    let e_E := eta user (ux_E g) (uy_E g) in
    let e_W := eta user (ux_W g) (uy_W g) in
    let e_N := eta user (ux_N g) (uy_N g) in
    let e_S := eta user (ux_S g) (uy_S g) in
    let uxx := - hy * (e_E * ux_E g - e_W * ux_W g) in
    let uyy := - hx * (e_N * uy_N g - e_S * uy_S g) in
    uxx + uyy - sc * PetscExpScalar u.

Definition FormFunctionLocal (info : DMDALocalInfo) (x f : Field) (user : AppCtx)
    : Field :=
  for_range (ys info) (ym info)
    (fun j f =>
       for_range (xs info) (xm info)
         (fun i f => store f j i (FormFunction_point info x user j i)) f)
    f.

(** ** The matrix interface and PETSc error handling *)

(** [MatStencil]: the grid point a row or a column stands for. *)
Record MatStencil : Type := mkStencil { st_j : Z; st_i : Z }.

(** One [MatSetValuesStencil(B,1,&row,n,col,v,INSERT_VALUES)]: the row and
    the first [n] columns and values. *)
Record SetValues : Type := mkSetValues {
  sv_row  : MatStencil;
  sv_cols : list MatStencil;
  sv_vals : list R
}.

Record Mat : Type := mkMat {
  calls                    : list SetValues;  (* in program order *)
  assembled                : bool;            (* MAT_FINAL_ASSEMBLY done *)
  new_nonzero_location_err : bool             (* MAT_NEW_NONZERO_LOCATION_ERR *)
}.

(** What [SETERRQ1] raises: the error class, the format and its argument. *)
Record PetscError : Type := mkPetscError {
  err_code   : Z;
  err_format : string;
  err_arg    : Z
}.

Definition PETSC_ERR_SUP : Z := 56.

(** A [PetscErrorCode] function working on the matrix: the matrix is
    mutated in place, so it is returned also when an error is raised. *)
Definition PetscM (A : Type) : Type := Mat -> Mat * (PetscError + A).

Definition ret {A : Type} (a : A) : PetscM A := fun B => (B, inr a).

(** [ierr = m; CHKERRQ(ierr); k] *)
Definition bind {A C : Type} (m : PetscM A) (k : A -> PetscM C) : PetscM C :=
  fun B =>
    match m B with
    | (B', inl e) => (B', inl e)
    | (B', inr a) => k a B'
    end.

Notation "m ;; k" := (bind m (fun _ => k)) (at level 61, right associativity).

Definition SETERRQ1 {A : Type} (code : Z) (fmt : string) (arg : Z) : PetscM A :=
  fun B => (B, inl (mkPetscError code fmt arg)).

Definition MatSetValuesStencil (row : MatStencil) (cols : list MatStencil)
    (vals : list R) : PetscM unit :=
  fun B =>
    (mkMat (calls B ++ [mkSetValues row cols vals])
           (assembled B) (new_nonzero_location_err B),
     inr tt).

(** [MatAssemblyBegin] followed by [MatAssemblyEnd], [MAT_FINAL_ASSEMBLY]. *)
Definition MatAssembly : PetscM unit :=
  fun B => (mkMat (calls B) true (new_nonzero_location_err B), inr tt).

Definition MatSetOption_NEW_NONZERO_LOCATION_ERR (flg : bool) : PetscM unit :=
  fun B => (mkMat (calls B) (assembled B) flg, inr tt).

Fixpoint forM_count (n : nat) (k : Z) (body : Z -> PetscM unit) : PetscM unit :=
  match n with
  | O => ret tt
  | S n' => body k ;; forM_count n' (k + 1)%Z body
  end.

Definition forM_range (lo n : Z) (body : Z -> PetscM unit) : PetscM unit :=
  forM_count (Z.to_nat n) lo body.

(** ** The Jacobian (lines 321-463) *)

(** One pass of the loop body: the row of grid point [(i,j)]. *)
Definition FormJacobian_point (info : DMDALocalInfo) (x : Field) (user : AppCtx)
    (j i : Z) : PetscM unit :=
  let hx    := 1 / IZR (mx info - 1) in
  let hy    := 1 / IZR (my info - 1) in
  let sc    := hx * hy * lambda user in
  let dhx   := 1 / hx in
  let dhy   := 1 / hy in
  let hxdhy := hx / hy in
  let hydhx := hy / hx in
  let row   := mkStencil j i in
  if on_boundary (mx info) (my info) j i then
    MatSetValuesStencil row [row] [1]
  else
    let g    := edge_gradients dhx dhy x j i in
    let u    := x j i in
    let e_E  := eta user (ux_E g) (uy_E g) in
    let e_W  := eta user (ux_W g) (uy_W g) in
    let e_N  := eta user (ux_N g) (uy_N g) in
    let e_S  := eta user (ux_S g) (uy_S g) in
    let de_E := deta user (ux_E g) (uy_E g) in
    let de_W := deta user (ux_W g) (uy_W g) in
    let de_N := deta user (ux_N g) (uy_N g) in
    let de_S := deta user (ux_S g) (uy_S g) in
    let skew_E := de_E * ux_E g * uy_E g in
    let skew_W := de_W * ux_W g * uy_W g in
    let skew_N := de_N * ux_N g * uy_N g in
    let skew_S := de_S * ux_S g * uy_S g in
    let cross_EW := 0.25 * (skew_E - skew_W) in
    let cross_NS := 0.25 * (skew_N - skew_S) in
    let newt_E := e_E + de_E * PetscSqr (ux_E g) in
    let newt_W := e_W + de_W * PetscSqr (ux_W g) in
    let newt_N := e_N + de_N * PetscSqr (uy_N g) in
    let newt_S := e_S + de_S * PetscSqr (uy_S g) in
    match jtype user with
    | 1%Z =>
        (* Jacobian from p=2 *)
        MatSetValuesStencil row
          [ mkStencil (j-1) i; mkStencil j (i-1); mkStencil (st_j row) (st_i row);
            mkStencil j (i+1); mkStencil (j+1) i ]
          [ - hxdhy;
            - hydhx;
            2.0 * (hydhx + hxdhy) - sc * PetscExpScalar u;
            - hydhx;
            - hxdhy ]
    | 2%Z =>
        (* Jacobian arising from Picard linearization *)
        MatSetValuesStencil row
          [ mkStencil (j-1) i; mkStencil j (i-1); mkStencil (st_j row) (st_i row);
            mkStencil j (i+1); mkStencil (j+1) i ]
          [ - hxdhy * e_S;
            - hydhx * e_W;
            (e_W + e_E) * hydhx + (e_S + e_N) * hxdhy - sc * PetscExpScalar u;
            - hydhx * e_E;
            - hxdhy * e_N ]
    | 3%Z =>
        (* Full Jacobian, but only a star stencil *)
        MatSetValuesStencil row
          [ mkStencil (j-1) i; mkStencil j (i-1); mkStencil j i;
            mkStencil j (i+1); mkStencil (j+1) i ]
          [ - hxdhy * newt_S + cross_EW;
            - hydhx * newt_W + cross_NS;
            hxdhy * (newt_N + newt_S) + hydhx * (newt_E + newt_W) - sc * PetscExpScalar u;
            - hydhx * newt_E - cross_NS;
            - hxdhy * newt_N - cross_EW ]
    | 4%Z =>
        MatSetValuesStencil row
          [ mkStencil (j-1) (i-1); mkStencil (j-1) i; mkStencil (j-1) (i+1);
            mkStencil j (i-1);     mkStencil j i;     mkStencil j (i+1);
            mkStencil (j+1) (i-1); mkStencil (j+1) i; mkStencil (j+1) (i+1) ]
          [ - 0.25 * (skew_S + skew_W);
            - hxdhy * newt_S + cross_EW;
            0.25 * (skew_S + skew_E);
            - hydhx * newt_W + cross_NS;
            hxdhy * (newt_N + newt_S) + hydhx * (newt_E + newt_W) - sc * PetscExpScalar u;
            - hydhx * newt_E - cross_NS;
            0.25 * (skew_N + skew_W);
            - hxdhy * newt_N - cross_EW;
            - 0.25 * (skew_N + skew_E) ]
    | _ =>
        SETERRQ1 PETSC_ERR_SUP "Jacobian type %d not implemented" (jtype user)
    end.

(** [J] is not used by the callback and is left out. *)
Definition FormJacobianLocal (info : DMDALocalInfo) (x : Field) (user : AppCtx)
    : PetscM unit :=
  forM_range (ys info) (ym info)
    (fun j => forM_range (xs info) (xm info)
                (fun i => FormJacobian_point info x user j i)) ;;
  MatAssembly ;;
  MatSetOption_NEW_NONZERO_LOCATION_ERR true.

(** * Properties *)

(** ** Grid predicates used in the statements *)

(** [(i,j)] is one of the points the calling process owns. *)
Definition owned (info : DMDALocalInfo) (j i : Z) : Prop :=
  (ys info <= j < ys info + ym info)%Z /\ (xs info <= i < xs info + xm info)%Z.

Definition interior (Mx My j i : Z) : Prop :=
  (0 < i < Mx - 1)%Z /\ (0 < j < My - 1)%Z.

Definition boundary (Mx My j i : Z) : Prop :=
  i = 0%Z \/ j = 0%Z \/ i = (Mx - 1)%Z \/ j = (My - 1)%Z.

Lemma on_boundary_true (Mx My j i : Z) :
  on_boundary Mx My j i = true <-> boundary Mx My j i.
Proof.
  unfold on_boundary, boundary.
  rewrite !orb_true_iff, !Z.eqb_eq. tauto.
Qed.

Lemma on_boundary_interior (Mx My j i : Z) :
  interior Mx My j i -> on_boundary Mx My j i = false.
Proof.
  intros [Hi Hj].
  destruct (on_boundary Mx My j i) eqn:E; [|reflexivity].
  apply on_boundary_true in E. unfold boundary in E. lia.
Qed.

(** ** Loops that fill an array *)

(** Case analysis on every integer comparison of the goal. *)
Ltac zcases :=
  repeat match goal with
    | |- context [(?a <=? ?b)%Z] => destruct (Z.leb_spec a b)
    | |- context [(?a <? ?b)%Z] => destruct (Z.ltb_spec a b)
    | |- context [(?a =? ?b)%Z] => destruct (Z.eqb_spec a b)
    end;
  cbn [andb orb negb].

Section FillLoops.

Variable v : Z -> Z -> R.

Lemma store_same (a : Field) (j i : Z) (r : R) : store a j i r j i = r.
Proof. unfold store. now rewrite !Z.eqb_refl. Qed.

Lemma store_other (a : Field) (j i j' i' : Z) (r : R) :
  (j' <> j \/ i' <> i) -> store a j i r j' i' = a j' i'.
Proof. intros Hne. unfold store. zcases; try reflexivity. lia. Qed.

Lemma fill_row (j : Z) (n : nat) :
  forall (lo : Z) (a : Field) (j' i' : Z),
    for_count n lo (fun i a => store a j i (v j i)) a j' i'
    = if ((j' =? j) && (lo <=? i') && (i' <? lo + Z.of_nat n))%Z
      then v j i' else a j' i'.
Proof.
  induction n as [|n IH]; intros lo a j' i'.
  - cbn [for_count]. zcases; try reflexivity; lia.
  - cbn [for_count]. rewrite IH, Nat2Z.inj_succ.
    zcases; try reflexivity; try lia;
      first [ apply store_other; lia
            | subst; assert (i' = lo) by lia; subst; apply store_same ].
Qed.

Lemma fill_rows (m : nat) (ilo : Z) (n : nat) :
  forall (lo : Z) (a : Field) (j' i' : Z),
    for_count n lo
      (fun j a => for_count m ilo (fun i a => store a j i (v j i)) a) a j' i'
    = if ((lo <=? j') && (j' <? lo + Z.of_nat n)
          && (ilo <=? i') && (i' <? ilo + Z.of_nat m))%Z
      then v j' i' else a j' i'.
Proof.
  induction n as [|n IH]; intros lo a j' i'.
  - cbn [for_count]. zcases; try reflexivity; lia.
  - cbn [for_count]. rewrite IH, fill_row, Nat2Z.inj_succ.
    zcases; subst; try reflexivity; lia.
Qed.

(** The nested loops over the owned box assign [v j i] at the owned
    points and leave every other entry as it was. *)
Lemma fill_owned (info : DMDALocalInfo) (a : Field) (j i : Z) :
  owned info j i ->
  for_range (ys info) (ym info)
    (fun j a => for_range (xs info) (xm info)
                  (fun i a => store a j i (v j i)) a) a j i
  = v j i.
Proof.
  intros [Hj Hi]. unfold for_range. rewrite fill_rows.
  rewrite !Z2Nat.id by lia.
  zcases; try reflexivity; lia.
Qed.

Lemma fill_not_owned (info : DMDALocalInfo) (a : Field) (j i : Z) :
  ~ owned info j i ->
  for_range (ys info) (ym info)
    (fun j a => for_range (xs info) (xm info)
                  (fun i a => store a j i (v j i)) a) a j i
  = a j i.
Proof.
  intros Hn. unfold for_range. rewrite fill_rows.
  zcases; try reflexivity.
  elim Hn. unfold owned. lia.
Qed.

End FillLoops.

Lemma FormFunctionLocal_owned (info : DMDALocalInfo) (x f : Field) (user : AppCtx)
    (j i : Z) :
  owned info j i ->
  FormFunctionLocal info x f user j i = FormFunction_point info x user j i.
Proof.
  intros H. unfold FormFunctionLocal.
  apply (fill_owned (fun j i => FormFunction_point info x user j i)); assumption.
Qed.

Lemma FormInitialGuess_owned (dm : DMDALocalInfo) (x : Field) (j i : Z) :
  owned dm j i ->
  FormInitialGuess dm x j i = InitialGuess_point (mx dm) (my dm) j i.
Proof.
  intros H. unfold FormInitialGuess.
  apply (fill_owned (fun j i => InitialGuess_point (mx dm) (my dm) j i)); assumption.
Qed.

(** ** Decimal constants *)

Lemma dec_half : 0.5 = / 2.
Proof. lra. Qed.

Lemma dec_quarter : 0.25 = / 4.
Proof. lra. Qed.

Lemma dec_neg_quarter : -0.25 = - / 4.
Proof. lra. Qed.

Lemma dec_two : 2.0 = 2.
Proof. lra. Qed.

(** Ring and field equations whose constants are written in decimals. *)
Ltac dec_norm := rewrite ?dec_half, ?dec_quarter, ?dec_neg_quarter, ?dec_two.
Ltac dec_ring := dec_norm; unfold Rdiv; ring.
Ltac dec_field := dec_norm; field.

(** ** The diffusivity model *)

Lemma pow_pos (x y : R) : 0 < x -> pow x y = Rpower x y.
Proof.
  intros Hx. unfold pow.
  destruct (Req_dec_T y 0) as [->|_].
  - now rewrite Rpower_O.
  - destruct (Rlt_dec 0 x); [reflexivity | contradiction].
Qed.

Lemma pow_zero_exponent (x y : R) : y = 0 -> pow x y = 1.
Proof.
  intros ->. unfold pow. destruct (Req_dec_T 0 0); [reflexivity | congruence].
Qed.

(** The base [eta] and [deta] raise to a power. *)
Definition strain (ctx : AppCtx) (ux uy : R) : R :=
  PetscSqr (epsilon ctx) + 0.5 * (ux * ux + uy * uy).

Lemma strain_pos (ctx : AppCtx) (ux uy : R) :
  epsilon ctx <> 0 -> 0 < strain ctx ux uy.
Proof.
  intros He. unfold strain, PetscSqr.
  assert (0 < epsilon ctx * epsilon ctx) by nra.
  nra.
Qed.

Lemma eta_p2 (ctx : AppCtx) (ux uy : R) : p ctx = 2 -> eta ctx ux uy = 1.
Proof. intros Hp. unfold eta. apply pow_zero_exponent. rewrite Hp. lra. Qed.

Lemma deta_p2 (ctx : AppCtx) (ux uy : R) : p ctx = 2 -> deta ctx ux uy = 0.
Proof.
  intros Hp. unfold deta.
  destruct (Req_dec_T (p ctx) 2); [reflexivity | contradiction].
Qed.

(** C4, amended. In exact arithmetic and with [epsilon > 0], [eta ux uy] is
    [(epsilon^2 + (ux^2+uy^2)/2)^((p-2)/2)], [deta ux uy] is [0] when
    [p = 2] and [(epsilon^2 + (ux^2+uy^2)/2)^((p-4)/2) * (p-2)/2]
    otherwise; the base handed to [pow] is strictly positive, and so is
    the real number [eta ux uy].  Being functions of the context and the
    two gradient components only, both are pure.  (What the same
    expression gives in double precision is the subject of [Double]
    below.) *)
Theorem eta_deta_closed_form (ctx : AppCtx) (ux uy : R) :
  0 < epsilon ctx ->
  eta ctx ux uy
    = Rpower (epsilon ctx ^ 2 + (ux ^ 2 + uy ^ 2) / 2) ((p ctx - 2) / 2)
  /\ (p ctx = 2 -> deta ctx ux uy = 0)
  /\ (p ctx <> 2 ->
      deta ctx ux uy
      = Rpower (epsilon ctx ^ 2 + (ux ^ 2 + uy ^ 2) / 2) ((p ctx - 4) / 2)
        * ((p ctx - 2) / 2))
  /\ 0 < PetscSqr (epsilon ctx) + 0.5 * (ux * ux + uy * uy)
  /\ 0 < eta ctx ux uy.
Proof.
  intros He.
  assert (Hs : 0 < strain ctx ux uy) by (apply strain_pos; lra).
  assert (Hb : strain ctx ux uy = epsilon ctx ^ 2 + (ux ^ 2 + uy ^ 2) / 2)
    by (unfold strain, PetscSqr; dec_field).
  assert (Heta : eta ctx ux uy
                 = Rpower (epsilon ctx ^ 2 + (ux ^ 2 + uy ^ 2) / 2) ((p ctx - 2) / 2)).
  { unfold eta. fold (strain ctx ux uy). rewrite pow_pos by assumption.
    rewrite Hb. f_equal. dec_field. }
  split; [exact Heta|].
  split; [apply deta_p2|].
  split.
  - intros Hp. unfold deta.
    destruct (Req_dec_T (p ctx) 2); [contradiction|].
    fold (strain ctx ux uy). rewrite pow_pos by assumption.
    rewrite Hb. replace (0.5 * (p ctx - 4)) with ((p ctx - 4) / 2) by dec_field.
    dec_field.
  - split.
    + exact Hs.
    + rewrite Heta. unfold Rpower. apply exp_pos.
Qed.

(** The default context of [main] (line 93), with [epsilon = 1e-5]. *)
Definition default_ctx : AppCtx := mkAppCtx 6.0 2.0 1e-5 4.

Lemma eta_deta_closed_form_witness :
  0 < epsilon (mkAppCtx 6.0 3 1e-5 4)
  /\ deta (mkAppCtx 6.0 3 1e-5 4) 3 4
     = Rpower ((1e-5) ^ 2 + (3 ^ 2 + 4 ^ 2) / 2) ((3 - 4) / 2) * ((3 - 2) / 2)
  /\ 0 < eta (mkAppCtx 6.0 3 1e-5 4) 3 4.
Proof.
  assert (He : 0 < epsilon (mkAppCtx 6.0 3 1e-5 4)) by (simpl; lra).
  split; [exact He|].
  destruct (eta_deta_closed_form (mkAppCtx 6.0 3 1e-5 4) 3 4 He)
    as (_ & _ & Hd & _ & Hpos).
  split; [apply Hd; simpl; lra | exact Hpos].
Defined.

(** ** The diffusivity in double precision

    [eta] as the machine evaluates it: the same expression over IEEE
    binary64 numbers.  The C library is not part of the program; [pow] is
    taken from the C standard (Annex F) at the arguments where the standard
    fixes its value exactly, and is left undetermined elsewhere. *)
Module Double.

Import PrimFloat.
Local Open Scope float_scope.
Local Set Warnings "-inexact-float".

Record AppCtx : Type := mkAppCtx {
  lambda  : float;
  p       : float;
  epsilon : float;
  jtype   : Z
}.

Definition PetscSqr (a : float) : float := a * a.

(** [pow(x, +-0)] is [1] for every [x]; [pow(+0, y)] is [+0] for [0 < y]
    and [+inf] for [y < 0].  [None]: the value is the library's rounding
    of [x^y], which the standard does not fix. *)
Definition pow (x y : float) : option float :=
  match classify y with
  | FloatClass.PZero | FloatClass.NZero => Some 1
  | FloatClass.NaN => None
  | _ =>
      match classify x with
      | FloatClass.PZero => if 0 <? y then Some 0 else Some infinity
      | _ => None
      end
  end.

(** Lines 254-255. *)
Definition eta (ctx : AppCtx) (ux uy : float) : option float :=
  pow (PetscSqr (epsilon ctx) + 0.5 * (ux * ux + uy * uy)) (0.5 * (p ctx - 2)).

(** C4 as stated, read on the machine: with [epsilon > 0] every value
    [eta] returns is finite and strictly positive. *)
Definition eta_finite_positive : Prop :=
  forall (ctx : AppCtx) (ux uy v : float),
    (0 <? epsilon ctx) = true ->
    eta ctx ux uy = Some v ->
    (0 <? v) = true /\ (v <? infinity) = true.

(** With [epsilon = 1e-200] the square underflows to [0]: at zero gradient
    [eta] is [0] for [p = 3] and [+inf] for [p = 1.5]. *)
Lemma eta_underflow :
  eta (mkAppCtx 6 3 1e-200 4) 0 0 = Some 0
  /\ eta (mkAppCtx 6 1.5 1e-200 4) 0 0 = Some infinity.
Proof. split; reflexivity. Qed.

(** C4, as stated, fails in double precision. *)
Lemma eta_not_finite_positive : ~ eta_finite_positive.
Proof.
  intros H.
  destruct (H (mkAppCtx 6 3 1e-200 4) 0 0 0 eq_refl eq_refl) as [Hpos _].
  discriminate Hpos.
Qed.

End Double.

(** ** The residual *)

(** The whole grid owned by one process. *)
Definition whole_grid (Mx My : Z) : DMDALocalInfo := mkInfo Mx My 0 0 Mx My.

Lemma FormFunction_point_boundary (info : DMDALocalInfo) (x : Field) (user : AppCtx)
    (j i : Z) :
  boundary (mx info) (my info) j i ->
  FormFunction_point info x user j i = x j i.
Proof.
  intros Hb. unfold FormFunction_point.
  apply on_boundary_true in Hb. now rewrite Hb.
Qed.

(** With [p = 2] every [eta] is [1] and the two flux differences are second
    differences. *)
Lemma FormFunction_point_p2 (info : DMDALocalInfo) (x : Field) (user : AppCtx)
    (j i : Z) :
  p user = 2 ->
  interior (mx info) (my info) j i ->
  FormFunction_point info x user j i
  = (1 / IZR (my info - 1)) / (1 / IZR (mx info - 1))
      * (2 * x j i - x j (i+1)%Z - x j (i-1)%Z)
    + (1 / IZR (mx info - 1)) / (1 / IZR (my info - 1))
      * (2 * x j i - x (j+1)%Z i - x (j-1)%Z i)
    - 1 / IZR (mx info - 1) * (1 / IZR (my info - 1)) * lambda user * exp (x j i).
Proof.
  intros Hp Hi. unfold FormFunction_point.
  rewrite (on_boundary_interior _ _ _ _ Hi).
  cbv zeta. rewrite !eta_p2 by assumption.
  unfold edge_gradients, PetscExpScalar.
  cbn [ux_E uy_E ux_W uy_W ux_N uy_N ux_S uy_S].
  unfold Rdiv. ring.
Qed.

(** C8. At every owned boundary point the residual is the value of the
    field there, whatever the field is elsewhere and whatever the output
    array held before. *)
Theorem residual_boundary (info : DMDALocalInfo) (x f : Field) (user : AppCtx)
    (j i : Z) :
  owned info j i ->
  boundary (mx info) (my info) j i ->
  FormFunctionLocal info x f user j i = x j i.
Proof.
  intros Ho Hb.
  rewrite FormFunctionLocal_owned by assumption.
  now apply FormFunction_point_boundary.
Qed.

Lemma residual_boundary_witness :
  FormFunctionLocal (whole_grid 4 4) (fun j i => IZR (j + 10 * i)) (fun _ _ => 7)
    default_ctx 3%Z 2%Z = IZR (3 + 10 * 2).
Proof.
  apply (residual_boundary (whole_grid 4 4) (fun j i => IZR (j + 10 * i))).
  - unfold owned; simpl; lia.
  - unfold boundary; simpl; lia.
Defined.

(** The interior residual in the words of the specification: edge gradients
    by division by the mesh widths, [u[i,j]] standing for [x[j][i]]. *)
Definition residual_spec (Mx My : Z) (ctx : AppCtx) (x : Field) (j i : Z) : R :=
  let u (a b : Z) := x b a in
  let hx := 1 / IZR (Mx - 1) in
  let hy := 1 / IZR (My - 1) in
  let ux_E := (u (i+1)%Z j - u i j) / hx in
  let uy_E := 0.25 / hy * (u i (j+1)%Z + u (i+1)%Z (j+1)%Z
                           - u i (j-1)%Z - u (i+1)%Z (j-1)%Z) in
  let ux_W := (u i j - u (i-1)%Z j) / hx in
  let uy_W := 0.25 / hy * (u (i-1)%Z (j+1)%Z + u i (j+1)%Z
                           - u (i-1)%Z (j-1)%Z - u i (j-1)%Z) in
  let ux_N := 0.25 / hx * (u (i+1)%Z j + u (i+1)%Z (j+1)%Z
                           - u (i-1)%Z j - u (i-1)%Z (j+1)%Z) in
  let uy_N := (u i (j+1)%Z - u i j) / hy in
  let ux_S := 0.25 / hx * (u (i+1)%Z (j-1)%Z + u (i+1)%Z j
                           - u (i-1)%Z (j-1)%Z - u (i-1)%Z j) in
  let uy_S := (u i j - u i (j-1)%Z) / hy in
  let eta_E := eta ctx ux_E uy_E in
  let eta_W := eta ctx ux_W uy_W in
  let eta_N := eta ctx ux_N uy_N in
  let eta_S := eta ctx ux_S uy_S in
  let uxx := - hy * (eta_E * ux_E - eta_W * ux_W) in
  let uyy := - hx * (eta_N * uy_N - eta_S * uy_S) in
  uxx + uyy - hx * hy * lambda ctx * exp (u i j).

(** C1. At every owned interior point the residual evaluator returns
    [uxx + uyy - hx*hy*lambda*exp(u[i,j])], with the edge gradients, the
    four values of [eta] and the two flux differences of [residual_spec],
    [hx = 1/(Mx-1)] and [hy = 1/(My-1)]. *)
Theorem residual_interior (info : DMDALocalInfo) (x f : Field) (user : AppCtx)
    (j i : Z) :
  owned info j i ->
  interior (mx info) (my info) j i ->
  FormFunctionLocal info x f user j i
  = residual_spec (mx info) (my info) user x j i.
Proof.
  intros Ho Hi.
  rewrite FormFunctionLocal_owned by assumption.
  unfold FormFunction_point, residual_spec.
  rewrite (on_boundary_interior _ _ _ _ Hi).
  cbv zeta. unfold edge_gradients, PetscExpScalar. cbn [ux_E uy_E ux_W uy_W ux_N uy_N ux_S uy_S].
  set (hx := 1 / IZR (mx info - 1)).
  set (hy := 1 / IZR (my info - 1)).
  assert (Hq : forall h a, 0.25 * (1 / h) * a = 0.25 / h * a) by (intros; unfold Rdiv; ring).
  assert (Hd : forall h a, 1 / h * a = a / h) by (intros; unfold Rdiv; ring).
  rewrite !Hq, !Hd. reflexivity.
Qed.

Lemma residual_interior_witness :
  FormFunctionLocal (whole_grid 4 4) (fun j i => IZR (j * i)) (fun _ _ => 0)
    default_ctx 1%Z 2%Z
  = residual_spec 4 4 default_ctx (fun j i => IZR (j * i)) 1 2.
Proof.
  apply (residual_interior (whole_grid 4 4) (fun j i => IZR (j * i))).
  - unfold owned; simpl; lia.
  - unfold interior; simpl; lia.
Defined.

(** C5. With [p = 2], [deta] vanishes for all gradients, and at every
    owned interior point the residual is the five point Laplacian
    [hy/hx*(2u - u_E - u_W) + hx/hy*(2u - u_N - u_S)] minus the reaction
    term [hx*hy*lambda*exp(u)], for every field (and every [epsilon]). *)
Theorem residual_p2_laplacian (info : DMDALocalInfo) (x f : Field) (user : AppCtx)
    (j i : Z) :
  p user = 2 ->
  (forall ux uy : R, deta user ux uy = 0)
  /\ (owned info j i ->
      interior (mx info) (my info) j i ->
      let hx := 1 / IZR (mx info - 1) in
      let hy := 1 / IZR (my info - 1) in
      let u := x j i in
      FormFunctionLocal info x f user j i
      = hy / hx * (2 * u - x j (i+1)%Z - x j (i-1)%Z)
        + hx / hy * (2 * u - x (j+1)%Z i - x (j-1)%Z i)
        - hx * hy * lambda user * exp u).
Proof.
  intros Hp. split.
  - intros ux uy. now apply deta_p2.
  - intros Ho Hi hx hy u.
    rewrite FormFunctionLocal_owned by assumption.
    now apply FormFunction_point_p2.
Qed.

Lemma residual_p2_laplacian_witness :
  deta default_ctx 1 1 = 0
  /\ FormFunctionLocal (whole_grid 4 4) (fun j i => IZR (j * i)) (fun _ _ => 0)
       default_ctx 1%Z 2%Z
     = (1 / IZR (4 - 1)) / (1 / IZR (4 - 1)) * (2 * IZR (1 * 2) - IZR (1 * (2+1)) - IZR (1 * (2-1)))
       + (1 / IZR (4 - 1)) / (1 / IZR (4 - 1)) * (2 * IZR (1 * 2) - IZR ((1+1) * 2) - IZR ((1-1) * 2))
       - 1 / IZR (4 - 1) * (1 / IZR (4 - 1)) * lambda default_ctx * exp (IZR (1 * 2)).
Proof.
  assert (Hp : p default_ctx = 2) by (simpl; lra).
  destruct (residual_p2_laplacian (whole_grid 4 4) (fun j i => IZR (j * i))
              (fun _ _ => 0) default_ctx 1 2 Hp) as [Hd Hr].
  split; [apply Hd|].
  apply Hr.
  - unfold owned; simpl; lia.
  - unfold interior; simpl; lia.
Defined.

(** ** The 4 x 4 scenario *)

(** [p = 2], [epsilon = 1e-5], [lambda = 6.0], [jtype = 1]. *)
Definition scenario_ctx : AppCtx := mkAppCtx 6.0 2 1e-5 1.

Definition zero_field : Field := fun _ _ => 0.

(** The residual of the zero field on the 4 x 4 grid. *)
Definition scenario_residual (f : Field) : Field :=
  FormFunctionLocal (whole_grid 4 4) zero_field f scenario_ctx.

(** [sc = hx*hy*lambda] on that grid. *)
Definition scenario_sc : R := 1 / IZR (4 - 1) * (1 / IZR (4 - 1)) * 6.0.

Definition in_grid (Mx My j i : Z) : Prop := (0 <= j < My)%Z /\ (0 <= i < Mx)%Z.

(** The scenario as the specification words it: zero on the boundary, and
    one interior point only (one grid point failing the boundary test of
    the loop body), where the residual is [-sc]. *)
Definition scenario_as_stated (f : Field) : Prop :=
  (forall j i, in_grid 4 4 j i -> on_boundary 4 4 j i = true ->
               scenario_residual f j i = 0)
  /\ (exists j0 i0,
        in_grid 4 4 j0 i0 /\ on_boundary 4 4 j0 i0 = false
        /\ (forall j i, in_grid 4 4 j i -> on_boundary 4 4 j i = false ->
                        j = j0 /\ i = i0)
        /\ scenario_residual f j0 i0 = - scenario_sc).

(** C6, as stated, fails: on the 4 x 4 grid the points [(1,1)] and [(2,1)]
    both take the interior branch. *)
Lemma scenario_single_interior_point_fails :
  ~ scenario_as_stated zero_field.
Proof.
  intros [_ (j0 & i0 & _ & _ & Huniq & _)].
  assert (H1 : (1 = j0 /\ 1 = i0)%Z)
    by (apply Huniq; [unfold in_grid; lia | reflexivity]).
  assert (H2 : (1 = j0 /\ 2 = i0)%Z)
    by (apply Huniq; [unfold in_grid; lia | reflexivity]).
  lia.
Qed.

(** C6, amended. On the 4 x 4 grid with [p = 2], [epsilon = 1e-5],
    [lambda = 6.0] and [jtype = 1], the residual of the zero field is [0]
    at every boundary point and [-sc], [sc = hx*hy*lambda], at each of the
    four interior points [(1,1)], [(2,1)], [(1,2)], [(2,2)]. *)
Theorem scenario_zero_field (f : Field) (j i : Z) :
  in_grid 4 4 j i ->
  (boundary 4 4 j i -> scenario_residual f j i = 0)
  /\ (interior 4 4 j i ->
      ((j = 1 \/ j = 2) /\ (i = 1 \/ i = 2))%Z
      /\ scenario_residual f j i = - scenario_sc)
  /\ (boundary 4 4 j i \/ interior 4 4 j i).
Proof.
  intros [Hj Hi].
  assert (Ho : owned (whole_grid 4 4) j i) by (unfold owned; simpl; lia).
  split; [|split].
  - intros Hb. unfold scenario_residual.
    rewrite FormFunctionLocal_owned, FormFunction_point_boundary by assumption.
    reflexivity.
  - intros Hint. split; [unfold interior in Hint; lia|].
    assert (Hp : p scenario_ctx = 2) by reflexivity.
    unfold scenario_residual.
    rewrite FormFunctionLocal_owned, FormFunction_point_p2 by assumption.
    unfold zero_field, scenario_sc. simpl lambda. rewrite exp_0.
    cbn [mx my whole_grid]. lra.
  - unfold boundary, interior. lia.
Qed.

Lemma scenario_zero_field_witness :
  scenario_residual zero_field 0%Z 3%Z = 0
  /\ scenario_residual zero_field 2%Z 1%Z = - scenario_sc.
Proof.
  split.
  - apply (scenario_zero_field zero_field 0 3).
    + unfold in_grid; lia.
    + unfold boundary; lia.
  - apply (scenario_zero_field zero_field 2 1).
    + unfold in_grid; lia.
    + unfold interior; lia.
Defined.

(** ** The initial guess *)

Lemma bump_positive (n k : Z) :
  (0 < k < n)%Z ->
  let t := 2 * IZR k / IZR n - 1 in
  0 < 1 - t * t.
Proof.
  intros Hk t.
  assert (Hn : 0 < IZR n) by (apply IZR_lt; lia).
  assert (H0 : 0 < IZR k) by (apply IZR_lt; lia).
  assert (H1 : IZR k < IZR n) by (apply IZR_lt; lia).
  assert (Hq0 : 0 < IZR k / IZR n) by (apply Rdiv_lt_0_compat; assumption).
  assert (Hq1 : IZR k / IZR n < 1).
  { apply Rmult_lt_reg_r with (IZR n); [assumption|].
    unfold Rdiv. rewrite Rmult_assoc, Rinv_l by lra. lra. }
  assert (Ht : t = 2 * (IZR k / IZR n) - 1) by (unfold t, Rdiv; ring).
  rewrite Ht. nra.
Qed.

(** C9. For [Mx, My >= 2] the initial guess is exactly [0] at every owned
    boundary point and [(1-xx^2)*(1-yy^2)], [xx = 2i/(Mx-1)-1],
    [yy = 2j/(My-1)-1], at every owned interior point, where it is strictly
    positive. *)
Theorem initial_guess_values (dm : DMDALocalInfo) (x : Field) (j i : Z) :
  (2 <= mx dm)%Z -> (2 <= my dm)%Z ->
  owned dm j i ->
  (boundary (mx dm) (my dm) j i -> FormInitialGuess dm x j i = 0)
  /\ (interior (mx dm) (my dm) j i ->
      let xx := 2 * IZR i / IZR (mx dm - 1) - 1 in
      let yy := 2 * IZR j / IZR (my dm - 1) - 1 in
      FormInitialGuess dm x j i = (1 - xx ^ 2) * (1 - yy ^ 2)
      /\ 0 < FormInitialGuess dm x j i).
Proof.
  intros HMx HMy Ho. split.
  - intros Hb. rewrite FormInitialGuess_owned by assumption.
    unfold InitialGuess_point.
    apply on_boundary_true in Hb. now rewrite Hb.
  - intros Hint xx yy. rewrite FormInitialGuess_owned by assumption.
    unfold InitialGuess_point.
    rewrite (on_boundary_interior _ _ _ _ Hint). cbv zeta. fold xx yy.
    split; [ring|].
    destruct Hint as [Hi Hj].
    apply Rmult_lt_0_compat.
    + apply (bump_positive (mx dm - 1) i Hi).
    + apply (bump_positive (my dm - 1) j Hj).
Qed.

Lemma initial_guess_values_witness :
  FormInitialGuess (whole_grid 5 5) (fun _ _ => 9) 0%Z 2%Z = 0
  /\ 0 < FormInitialGuess (whole_grid 5 5) (fun _ _ => 9) 1%Z 2%Z.
Proof.
  split.
  - apply (initial_guess_values (whole_grid 5 5) (fun _ _ => 9) 0 2);
      [simpl; lia | simpl; lia | unfold owned; simpl; lia | unfold boundary; simpl; lia].
  - apply (initial_guess_values (whole_grid 5 5) (fun _ _ => 9) 1 2);
      [simpl; lia | simpl; lia | unfold owned; simpl; lia | unfold interior; simpl; lia].
Defined.

(** ** Loops that call the matrix interface *)

(** The indices [lo, lo+1, ..., lo+n-1] a loop runs through. *)
Fixpoint zrange (lo : Z) (n : nat) : list Z :=
  match n with
  | O => []
  | S n' => lo :: zrange (lo + 1)%Z n'
  end.

Lemma zrange_In (n : nat) :
  forall (lo k : Z), In k (zrange lo n) <-> (lo <= k < lo + Z.of_nat n)%Z.
Proof.
  induction n as [|n IH]; intros lo k.
  - simpl. lia.
  - cbn [zrange In]. rewrite IH, Nat2Z.inj_succ. lia.
Qed.

Lemma zrange_NoDup (n : nat) : forall lo : Z, NoDup (zrange lo n).
Proof.
  induction n as [|n IH]; intros lo; cbn [zrange]; constructor.
  - rewrite zrange_In. lia.
  - apply IH.
Qed.

Lemma filter_flat_map {A C : Type} (P : C -> bool) (g : A -> list C) (l : list A) :
  filter P (flat_map g l) = flat_map (fun a => filter P (g a)) l.
Proof.
  induction l as [|a l IH]; cbn [flat_map filter]; [reflexivity|].
  now rewrite filter_app, IH.
Qed.

Lemma flat_map_nil {A C : Type} (g : A -> list C) (l : list A) :
  (forall a, In a l -> g a = []) -> flat_map g l = [].
Proof.
  induction l as [|a l IH]; intros H; cbn [flat_map]; [reflexivity|].
  rewrite (H a) by now left. apply IH. intros b Hb. apply H. now right.
Qed.

(** Only one element of a duplicate free list contributes. *)
Lemma flat_map_single {A C : Type} (g : A -> list C) (k : A) (l : list A) :
  NoDup l -> In k l -> (forall a, In a l -> a <> k -> g a = []) ->
  flat_map g l = g k.
Proof.
  induction l as [|a l IH]; intros Hnd Hin Hg; [contradiction|].
  cbn [flat_map]. inversion Hnd as [|a' l' Hna Hnd']; subst.
  destruct Hin as [->|Hin].
  - rewrite (flat_map_nil g l), app_nil_r; [reflexivity|].
    intros b Hb. apply Hg; [now right|]. intros ->. contradiction.
  - rewrite (Hg a); [|now left|intros ->; contradiction].
    apply IH; try assumption.
    intros b Hb. apply Hg. now right.
Qed.

Definition empty_mat : Mat := mkMat [] false false.

(** [m] succeeds on every matrix and records exactly the calls [l]. *)
Definition appends (m : PetscM unit) (l : list SetValues) : Prop :=
  forall B : Mat,
    m B = (mkMat (calls B ++ l) (assembled B) (new_nonzero_location_err B), inr tt).

Lemma appends_MatSetValuesStencil (row : MatStencil) (cols : list MatStencil)
    (vals : list R) :
  appends (MatSetValuesStencil row cols vals) [mkSetValues row cols vals].
Proof. intros B. reflexivity. Qed.

Lemma appends_bind (m k : PetscM unit) (l1 l2 : list SetValues) :
  appends m l1 -> appends k l2 -> appends (m ;; k) (l1 ++ l2).
Proof.
  intros Hm Hk B. unfold bind. rewrite Hm, Hk. cbn [calls assembled new_nonzero_location_err].
  now rewrite app_assoc.
Qed.

Lemma appends_forM (body : Z -> PetscM unit) (g : Z -> list SetValues) (n : nat) :
  forall lo : Z,
    (forall k, (lo <= k < lo + Z.of_nat n)%Z -> appends (body k) (g k)) ->
    appends (forM_count n lo body) (flat_map g (zrange lo n)).
Proof.
  induction n as [|n IH]; intros lo Hb.
  - intros B. cbn [forM_count zrange flat_map]. unfold ret.
    rewrite app_nil_r. now destruct B.
  - cbn [forM_count zrange flat_map]. apply appends_bind.
    + apply Hb. lia.
    + apply IH. intros k Hk. apply Hb. lia.
Qed.

(** [m] raises [e] on every matrix. *)
Definition raises (m : PetscM unit) (e : PetscError) : Prop :=
  forall B : Mat, snd (m B) = inl e.

(** [m] either succeeds or raises [e]. *)
Definition may_raise (m : PetscM unit) (e : PetscError) : Prop :=
  forall B : Mat, snd (m B) = inr tt \/ snd (m B) = inl e.

Lemma raises_bind_l (m k : PetscM unit) (e : PetscError) :
  raises m e -> raises (m ;; k) e.
Proof.
  intros Hm B. unfold bind. specialize (Hm B).
  destruct (m B) as [B' [e'|[]]]; cbn [snd] in *; congruence.
Qed.

Lemma raises_bind_r (m k : PetscM unit) (e : PetscError) :
  may_raise m e -> raises k e -> raises (m ;; k) e.
Proof.
  intros Hm Hk B. unfold bind. specialize (Hm B).
  destruct (m B) as [B' [e'|[]]]; cbn [snd] in *.
  - destruct Hm; congruence.
  - apply Hk.
Qed.

Lemma may_raise_forM (body : Z -> PetscM unit) (e : PetscError) :
  (forall k, may_raise (body k) e) ->
  forall (n : nat) (lo : Z), may_raise (forM_count n lo body) e.
Proof.
  intros Hb. induction n as [|n IH]; intros lo B.
  - left. reflexivity.
  - cbn [forM_count]. unfold bind.
    destruct (Hb lo B) as [H|H]; destruct (body lo B) as [B' [e'|[]]];
      cbn [snd] in *; try discriminate.
    + apply IH.
    + right. exact H.
Qed.

Lemma raises_forM (body : Z -> PetscM unit) (e : PetscError) :
  (forall k, may_raise (body k) e) ->
  forall (n : nat) (lo k : Z),
    (lo <= k < lo + Z.of_nat n)%Z -> raises (body k) e ->
    raises (forM_count n lo body) e.
Proof.
  intros Hb. induction n as [|n IH]; intros lo k Hk Hr; [lia|].
  cbn [forM_count].
  destruct (Z.eq_dec k lo) as [->|Hne].
  - now apply raises_bind_l.
  - apply raises_bind_r; [apply Hb|].
    apply (IH (lo + 1)%Z k); [lia | assumption].
Qed.

(** ** The Jacobian: one row *)

(** The [switch] on [jtype], read as a chain of tests. *)
Lemma jtype_switch {A : Type} (z : Z) (a1 a2 a3 a4 d : A) :
  match z with 1%Z => a1 | 2%Z => a2 | 3%Z => a3 | 4%Z => a4 | _ => d end
  = if (z =? 1)%Z then a1 else if (z =? 2)%Z then a2
    else if (z =? 3)%Z then a3 else if (z =? 4)%Z then a4 else d.
Proof.
  destruct z as [|q|q]; try reflexivity.
  repeat (destruct q as [q|q|]; try reflexivity).
Qed.

Definition supported (jt : Z) : Prop :=
  jt = 1%Z \/ jt = 2%Z \/ jt = 3%Z \/ jt = 4%Z.

(** The error of the [default] branch. *)
Definition unsupported (jt : Z) : PetscError :=
  mkPetscError PETSC_ERR_SUP "Jacobian type %d not implemented" jt.

(** The calls one pass of the loop body makes. *)
Definition point_calls (info : DMDALocalInfo) (x : Field) (user : AppCtx)
    (j i : Z) : list SetValues :=
  calls (fst (FormJacobian_point info x user j i empty_mat)).

Lemma point_boundary (info : DMDALocalInfo) (x : Field) (user : AppCtx) (j i : Z) :
  boundary (mx info) (my info) j i ->
  appends (FormJacobian_point info x user j i)
          [mkSetValues (mkStencil j i) [mkStencil j i] [1]].
Proof.
  intros Hb B. apply on_boundary_true in Hb.
  unfold FormJacobian_point. cbv zeta. rewrite Hb. reflexivity.
Qed.

Lemma point_supported (info : DMDALocalInfo) (x : Field) (user : AppCtx) (j i : Z) :
  supported (jtype user) ->
  appends (FormJacobian_point info x user j i) (point_calls info x user j i).
Proof.
  intros Hs B. unfold point_calls, FormJacobian_point. cbv zeta.
  destruct (on_boundary (mx info) (my info) j i); [reflexivity|].
  rewrite !jtype_switch.
  destruct Hs as [H|[H|[H|H]]]; rewrite H; reflexivity.
Qed.

Lemma point_unsupported (info : DMDALocalInfo) (x : Field) (user : AppCtx) (j i : Z) :
  ~ supported (jtype user) ->
  on_boundary (mx info) (my info) j i = false ->
  raises (FormJacobian_point info x user j i) (unsupported (jtype user)).
Proof.
  intros Hs Hi B. unfold FormJacobian_point. cbv zeta.
  rewrite Hi, jtype_switch.
  unfold supported in Hs.
  zcases; try reflexivity; lia.
Qed.

Lemma point_may_raise (info : DMDALocalInfo) (x : Field) (user : AppCtx) (j i : Z) :
  ~ supported (jtype user) ->
  may_raise (FormJacobian_point info x user j i) (unsupported (jtype user)).
Proof.
  intros Hs B.
  destruct (on_boundary (mx info) (my info) j i) eqn:E.
  - left. apply on_boundary_true in E. now rewrite (point_boundary info x user j i E B).
  - right. now apply point_unsupported.
Qed.

(** ** Unsupported Jacobian types *)

(** C7 as stated: on every grid with [Mx, My >= 2] an unsupported [jtype]
    makes the assembly fail. *)
Definition unsupported_jtype_always_fails : Prop :=
  forall (Mx My : Z) (x : Field) (user : AppCtx) (B : Mat),
    (2 <= Mx)%Z -> (2 <= My)%Z ->
    ~ supported (jtype user) ->
    snd (FormJacobianLocal (whole_grid Mx My) x user B)
    = inl (unsupported (jtype user)).

(** On the 2 x 2 grid every point is a boundary point, the [switch] is
    never reached and the assembly succeeds with [jtype = 7]. *)
Lemma unsupported_jtype_2x2_succeeds :
  ~ unsupported_jtype_always_fails.
Proof.
  intros H.
  specialize (H 2%Z 2%Z zero_field (mkAppCtx 6.0 2 1e-5 7) empty_mat).
  assert (Hok : snd (FormJacobianLocal (whole_grid 2 2) zero_field
                       (mkAppCtx 6.0 2 1e-5 7) empty_mat) = inr tt)
    by reflexivity.
  rewrite Hok in H.
  assert (Hcontra : @inr PetscError unit tt = inl (unsupported 7)).
  { apply H; try lia. unfold supported. simpl. lia. }
  discriminate Hcontra.
Qed.

(** One identity row, the value [1] on the diagonal, for each owned point,
    in the order of the two loops. *)
Definition owned_identity_rows (info : DMDALocalInfo) : list SetValues :=
  flat_map
    (fun j => flat_map
                (fun i => [mkSetValues (mkStencil j i) [mkStencil j i] [1]])
                (zrange (xs info) (Z.to_nat (xm info))))
    (zrange (ys info) (Z.to_nat (ym info))).

(** C7, amended. With [jtype] outside [{1,2,3,4}] the assembly fails with
    the error [PETSC_ERR_SUP] whose message carries the value of [jtype] as
    soon as the process owns an interior grid point; when every owned point
    is a boundary point it succeeds, having set exactly one identity row
    for each owned point and nothing else, and leaves the matrix assembled
    with new nonzero locations forbidden. *)
Theorem unsupported_jtype (info : DMDALocalInfo) (x : Field) (user : AppCtx) (B : Mat) :
  ~ supported (jtype user) ->
  ((exists j i, owned info j i /\ interior (mx info) (my info) j i) ->
   exists e, snd (FormJacobianLocal info x user B) = inl e
             /\ err_code e = PETSC_ERR_SUP /\ err_arg e = jtype user)
  /\ ((forall j i, owned info j i -> boundary (mx info) (my info) j i) ->
      FormJacobianLocal info x user B
      = (mkMat (calls B ++ owned_identity_rows info) true true, inr tt)).
Proof.
  intros Hs. split.
  - intros (j & i & [Hj Hi] & Hint).
    exists (unsupported (jtype user)). split; [|split; reflexivity].
    unfold FormJacobianLocal. apply raises_bind_l.
    unfold forM_range.
    apply (raises_forM _ _
             (fun j => may_raise_forM _ _ (fun i => point_may_raise info x user j i Hs) _ _)
             _ _ j).
    + rewrite Z2Nat.id by lia. exact Hj.
    + apply (raises_forM _ _ (fun i => point_may_raise info x user j i Hs) _ _ i).
      * rewrite Z2Nat.id by lia. exact Hi.
      * apply point_unsupported; [assumption|]. now apply on_boundary_interior.
  - intros Hall.
    assert (Hloops : appends
              (forM_range (ys info) (ym info)
                 (fun j => forM_range (xs info) (xm info)
                             (fun i => FormJacobian_point info x user j i)))
              (owned_identity_rows info)).
    { unfold forM_range, owned_identity_rows. apply appends_forM. intros j Hj.
      apply appends_forM. intros i Hi.
      apply point_boundary. apply Hall. unfold owned. lia. }
    unfold FormJacobianLocal, bind. rewrite Hloops. reflexivity.
Qed.

Lemma unsupported_jtype_witness :
  (exists e, snd (FormJacobianLocal (whole_grid 4 4) zero_field
                    (mkAppCtx 6.0 2 1e-5 0) empty_mat) = inl e
             /\ err_code e = PETSC_ERR_SUP /\ err_arg e = 0%Z)
  /\ FormJacobianLocal (whole_grid 2 2) zero_field (mkAppCtx 6.0 2 1e-5 7) empty_mat
     = (mkMat (calls empty_mat ++ owned_identity_rows (whole_grid 2 2)) true true,
        inr tt).
Proof.
  split.
  - apply (unsupported_jtype (whole_grid 4 4) zero_field (mkAppCtx 6.0 2 1e-5 0)
             empty_mat).
    + unfold supported; simpl; lia.
    + exists 1%Z, 1%Z. unfold owned, interior; simpl; lia.
  - apply (unsupported_jtype (whole_grid 2 2) zero_field (mkAppCtx 6.0 2 1e-5 7)
             empty_mat).
    + unfold supported; simpl; lia.
    + intros j i. unfold owned, boundary; simpl; lia.
Defined.

(** ** The Jacobian: all rows *)

(** Every call made in the two loops, in program order. *)
Definition all_calls (info : DMDALocalInfo) (x : Field) (user : AppCtx)
    : list SetValues :=
  flat_map
    (fun j => flat_map (fun i => point_calls info x user j i)
                (zrange (xs info) (Z.to_nat (xm info))))
    (zrange (ys info) (Z.to_nat (ym info))).

(** The call sets row [(i,j)]. *)
Definition is_row (j i : Z) (c : SetValues) : bool :=
  ((st_j (sv_row c) =? j) && (st_i (sv_row c) =? i))%Z.

Lemma FormJacobianLocal_supported (info : DMDALocalInfo) (x : Field) (user : AppCtx)
    (B : Mat) :
  supported (jtype user) ->
  FormJacobianLocal info x user B
  = (mkMat (calls B ++ all_calls info x user) true true, inr tt).
Proof.
  intros Hs.
  assert (Hloops : appends
            (forM_range (ys info) (ym info)
               (fun j => forM_range (xs info) (xm info)
                           (fun i => FormJacobian_point info x user j i)))
            (all_calls info x user)).
  { unfold forM_range, all_calls. apply appends_forM. intros j _.
    apply appends_forM. intros i _. now apply point_supported. }
  unfold FormJacobianLocal, bind. rewrite Hloops. reflexivity.
Qed.

Lemma filter_row_single (j i j' i' : Z) (cols : list MatStencil) (vals : list R) :
  filter (is_row j i) [mkSetValues (mkStencil j' i') cols vals]
  = if ((j' =? j) && (i' =? i))%Z
    then [mkSetValues (mkStencil j' i') cols vals] else [].
Proof. reflexivity. Qed.

Lemma point_calls_row (info : DMDALocalInfo) (x : Field) (user : AppCtx)
    (j i j' i' : Z) :
  filter (is_row j i) (point_calls info x user j' i')
  = if ((j' =? j) && (i' =? i))%Z then point_calls info x user j' i' else [].
Proof.
  unfold point_calls, FormJacobian_point. cbv zeta.
  destruct (on_boundary (mx info) (my info) j' i').
  - apply filter_row_single.
  - rewrite !jtype_switch.
    destruct (jtype user =? 1)%Z; [|destruct (jtype user =? 2)%Z;
      [|destruct (jtype user =? 3)%Z; [|destruct (jtype user =? 4)%Z]]];
      try apply filter_row_single.
    cbn [SETERRQ1 fst calls empty_mat filter].
    destruct ((j' =? j) && (i' =? i))%Z; reflexivity.
Qed.

(** Among all calls of an assembly, those for the row of an owned point are
    the ones made in its own pass of the loop body. *)
Lemma row_of_owned (info : DMDALocalInfo) (x : Field) (user : AppCtx) (j i : Z) :
  owned info j i ->
  filter (is_row j i) (all_calls info x user) = point_calls info x user j i.
Proof.
  intros [Hj Hi]. unfold all_calls.
  rewrite filter_flat_map.
  rewrite (flat_map_single _ j).
  - rewrite filter_flat_map.
    rewrite (flat_map_single _ i).
    + rewrite point_calls_row, !Z.eqb_refl. reflexivity.
    + apply zrange_NoDup.
    + apply zrange_In. rewrite Z2Nat.id by lia. exact Hi.
    + intros i' _ Hne. rewrite point_calls_row.
      apply Z.eqb_neq in Hne. rewrite Hne, andb_false_r. reflexivity.
  - apply zrange_NoDup.
  - apply zrange_In. rewrite Z2Nat.id by lia. exact Hj.
  - intros j' _ Hne. rewrite filter_flat_map. apply flat_map_nil.
    intros i' _. rewrite point_calls_row.
    apply Z.eqb_neq in Hne. rewrite Hne. reflexivity.
Qed.

(** ** The Newton terms, in the words of the specification *)

(** [eta + deta * (gradient component)^2] at an edge with gradient
    [(ux,uy)]; [c] is the component normal to the edge. *)
Definition newt (ctx : AppCtx) (ux uy c : R) : R :=
  eta ctx ux uy + deta ctx ux uy * c ^ 2.

(** [deta * ux * uy] at an edge. *)
Definition skew (ctx : AppCtx) (ux uy : R) : R :=
  deta ctx ux uy * ux * uy.

(** Two lists of five or nine reals are equal when their entries are. *)
Ltac vals_eq := repeat (apply (f_equal2 (@cons R)); [try dec_ring|]); try reflexivity.

(** C3. With [jtype = 3] the row of an owned interior point is set by one
    call with exactly the five columns S, W, centre, E, N (no diagonal
    neighbour) and the values
    [-hx/hy*newt_S + cross_EW], [-hy/hx*newt_W + cross_NS],
    [hx/hy*(newt_N+newt_S) + hy/hx*(newt_E+newt_W) - hx*hy*lambda*exp(u)],
    [-hy/hx*newt_E - cross_NS], [-hx/hy*newt_N - cross_EW]. *)
Theorem jacobian_star_row (info : DMDALocalInfo) (x : Field) (user : AppCtx)
    (B : Mat) (j i : Z) :
  jtype user = 3%Z ->
  owned info j i ->
  interior (mx info) (my info) j i ->
  let hx := 1 / IZR (mx info - 1) in
  let hy := 1 / IZR (my info - 1) in
  let g := edge_gradients (1 / hx) (1 / hy) x j i in
  let newt_E := newt user (ux_E g) (uy_E g) (ux_E g) in
  let newt_W := newt user (ux_W g) (uy_W g) (ux_W g) in
  let newt_N := newt user (ux_N g) (uy_N g) (uy_N g) in
  let newt_S := newt user (ux_S g) (uy_S g) (uy_S g) in
  let skew_E := skew user (ux_E g) (uy_E g) in
  let skew_W := skew user (ux_W g) (uy_W g) in
  let skew_N := skew user (ux_N g) (uy_N g) in
  let skew_S := skew user (ux_S g) (uy_S g) in
  let cross_EW := 0.25 * (skew_E - skew_W) in
  let cross_NS := 0.25 * (skew_N - skew_S) in
  exists new : list SetValues,
    FormJacobianLocal info x user B = (mkMat (calls B ++ new) true true, inr tt)
    /\ filter (is_row j i) new
       = [ mkSetValues (mkStencil j i)
             [ mkStencil (j-1) i; mkStencil j (i-1); mkStencil j i;
               mkStencil j (i+1); mkStencil (j+1) i ]
             [ - hx / hy * newt_S + cross_EW;
               - hy / hx * newt_W + cross_NS;
               hx / hy * (newt_N + newt_S) + hy / hx * (newt_E + newt_W)
                 - hx * hy * lambda user * exp (x j i);
               - hy / hx * newt_E - cross_NS;
               - hx / hy * newt_N - cross_EW ] ].
Proof.
  intros H3 Ho Hi hx hy g newt_E newt_W newt_N newt_S skew_E skew_W skew_N skew_S
         cross_EW cross_NS.
  exists (all_calls info x user). split.
  - apply FormJacobianLocal_supported. unfold supported. tauto.
  - rewrite row_of_owned by assumption.
    unfold point_calls, FormJacobian_point. cbv zeta.
    rewrite (on_boundary_interior _ _ _ _ Hi), H3.
    cbn [MatSetValuesStencil fst calls empty_mat app].
    fold hx hy. fold g.
    unfold cross_EW, cross_NS, skew_E, skew_W, skew_N, skew_S,
           newt_E, newt_W, newt_N, newt_S, skew, newt, PetscSqr, PetscExpScalar.
    do 2 f_equal. vals_eq.
Qed.

Lemma jacobian_star_row_witness :
  exists new : list SetValues,
    FormJacobianLocal (whole_grid 4 4) zero_field (mkAppCtx 6.0 3 1e-5 3) empty_mat
    = (mkMat (calls empty_mat ++ new) true true, inr tt)
    /\ List.length (filter (is_row 1 2) new) = 1%nat.
Proof.
  destruct (jacobian_star_row (whole_grid 4 4) zero_field (mkAppCtx 6.0 3 1e-5 3)
              empty_mat 1 2) as (new & Hrun & Hrow).
  - reflexivity.
  - unfold owned; simpl; lia.
  - unfold interior; simpl; lia.
  - exists new. split; [exact Hrun|]. rewrite Hrow. reflexivity.
Defined.

(** ** The four modes at [p = 2] *)

Definition stencil_eqb (a b : MatStencil) : bool :=
  ((st_j a =? st_j b) && (st_i a =? st_i b))%Z.

Fixpoint lookup_col (cols : list MatStencil) (vals : list R) (col : MatStencil) : R :=
  match cols, vals with
  | c :: cs, v :: vs => if stencil_eqb c col then v else lookup_col cs vs col
  | _, _ => 0
  end.

(** The value a call gives to the matrix entry in column [col] of its row,
    [0] for a column it does not set. *)
Definition entry (c : SetValues) (col : MatStencil) : R :=
  lookup_col (sv_cols c) (sv_vals c) col.

(** The same problem with another Jacobian type. *)
Definition with_jtype (user : AppCtx) (jt : Z) : AppCtx :=
  mkAppCtx (lambda user) (p user) (epsilon user) jt.

(** The row of the linear problem: the identity on the boundary, the five
    point Laplacian with the reaction term elsewhere. *)
Definition laplace_row (info : DMDALocalInfo) (x : Field) (user : AppCtx)
    (j i : Z) : SetValues :=
  let hx := 1 / IZR (mx info - 1) in
  let hy := 1 / IZR (my info - 1) in
  if on_boundary (mx info) (my info) j i then
    mkSetValues (mkStencil j i) [mkStencil j i] [1]
  else
    mkSetValues (mkStencil j i)
      [ mkStencil (j-1) i; mkStencil j (i-1); mkStencil j i;
        mkStencil j (i+1); mkStencil (j+1) i ]
      [ - (hx / hy); - (hy / hx);
        2 * (hy / hx + hx / hy) - hx * hy * lambda user * exp (x j i);
        - (hy / hx); - (hx / hy) ].

Lemma point_calls_p2 (info : DMDALocalInfo) (x : Field) (user : AppCtx) (j i : Z) :
  p user = 2 ->
  supported (jtype user) ->
  exists c : SetValues,
    point_calls info x user j i = [c]
    /\ (forall col, entry c col = entry (laplace_row info x user j i) col)
    /\ (jtype user = 4%Z -> on_boundary (mx info) (my info) j i = false ->
        forall col,
          In col [ mkStencil (j-1) (i-1); mkStencil (j-1) (i+1);
                   mkStencil (j+1) (i-1); mkStencil (j+1) (i+1) ] ->
          In col (sv_cols c) /\ entry c col = 0).
Proof.
  intros Hp Hs.
  unfold point_calls, FormJacobian_point, laplace_row. cbv zeta.
  destruct (on_boundary (mx info) (my info) j i).
  - eexists. split; [reflexivity|]. split; [reflexivity|]. discriminate.
  - set (hx := 1 / IZR (mx info - 1)). set (hy := 1 / IZR (my info - 1)).
    destruct Hs as [H|[H|[H|H]]]; rewrite H;
      (eexists; split; [reflexivity|]); (split; [|try (intros; discriminate)]).
    + intros col. unfold entry, PetscExpScalar.
      cbn [sv_cols sv_vals lookup_col]. unfold stencil_eqb. cbn [st_j st_i].
      zcases; try lia; dec_ring.
    + intros col. unfold entry, PetscExpScalar.
      cbn [sv_cols sv_vals lookup_col]. unfold stencil_eqb. cbn [st_j st_i].
      rewrite !eta_p2 by assumption.
      zcases; try lia; dec_ring.
    + intros col. unfold entry, PetscExpScalar, PetscSqr.
      cbn [sv_cols sv_vals lookup_col]. unfold stencil_eqb. cbn [st_j st_i].
      rewrite !eta_p2, !deta_p2 by assumption.
      zcases; try lia; dec_ring.
    + intros col. unfold entry, PetscExpScalar, PetscSqr.
      cbn [sv_cols sv_vals lookup_col]. unfold stencil_eqb. cbn [st_j st_i].
      rewrite !eta_p2, !deta_p2 by assumption.
      zcases; try lia; dec_ring.
    + intros _ _ col Hin. split.
      * cbn [sv_cols]. cbn [In] in *. tauto.
      * unfold entry, PetscSqr.
        cbn [sv_cols sv_vals lookup_col]. unfold stencil_eqb. cbn [st_j st_i].
        rewrite !deta_p2 by assumption.
        cbn [In] in Hin.
        destruct Hin as [<-|[<-|[<-|[<-|[]]]]]; cbn [st_j st_i];
          zcases; try lia; dec_ring.
Qed.

(** C10. With [p = 2], for every field and every owned row, any two
    supported Jacobian types set the same matrix entries: each makes one
    call for the row, and the two calls agree in every column (a column a
    call does not set counting as [0]); and at an interior row the four
    corner columns that type 4 writes receive exactly [0]. *)
Theorem jacobian_modes_agree_p2 (info : DMDALocalInfo) (x : Field) (user : AppCtx)
    (jt1 jt2 : Z) (B1 B2 : Mat) (j i : Z) :
  p user = 2 ->
  supported jt1 -> supported jt2 ->
  owned info j i ->
  exists (new1 new2 : list SetValues) (c1 c2 : SetValues),
    FormJacobianLocal info x (with_jtype user jt1) B1
      = (mkMat (calls B1 ++ new1) true true, inr tt)
    /\ FormJacobianLocal info x (with_jtype user jt2) B2
      = (mkMat (calls B2 ++ new2) true true, inr tt)
    /\ filter (is_row j i) new1 = [c1]
    /\ filter (is_row j i) new2 = [c2]
    /\ (forall col, entry c1 col = entry c2 col)
    /\ (jt1 = 4%Z -> interior (mx info) (my info) j i ->
        forall col,
          In col [ mkStencil (j-1) (i-1); mkStencil (j-1) (i+1);
                   mkStencil (j+1) (i-1); mkStencil (j+1) (i+1) ] ->
          In col (sv_cols c1) /\ entry c1 col = 0).
Proof.
  intros Hp Hs1 Hs2 Ho.
  destruct (point_calls_p2 info x (with_jtype user jt1) j i Hp Hs1)
    as (c1 & Hc1 & He1 & Hcorner).
  destruct (point_calls_p2 info x (with_jtype user jt2) j i Hp Hs2)
    as (c2 & Hc2 & He2 & _).
  exists (all_calls info x (with_jtype user jt1)),
         (all_calls info x (with_jtype user jt2)), c1, c2.
  split; [now apply FormJacobianLocal_supported|].
  split; [now apply FormJacobianLocal_supported|].
  rewrite !row_of_owned by assumption.
  split; [exact Hc1|]. split; [exact Hc2|]. split.
  - intros col. rewrite He1, He2. reflexivity.
  - intros H4 Hint. apply Hcorner; [exact H4|].
    now apply on_boundary_interior.
Qed.

Lemma jacobian_modes_agree_p2_witness :
  exists (new1 new2 : list SetValues) (c1 c2 : SetValues),
    FormJacobianLocal (whole_grid 4 4) zero_field (with_jtype default_ctx 4) empty_mat
      = (mkMat (calls empty_mat ++ new1) true true, inr tt)
    /\ FormJacobianLocal (whole_grid 4 4) zero_field (with_jtype default_ctx 1) empty_mat
      = (mkMat (calls empty_mat ++ new2) true true, inr tt)
    /\ filter (is_row 2 1) new1 = [c1]
    /\ filter (is_row 2 1) new2 = [c2]
    /\ (forall col, entry c1 col = entry c2 col).
Proof.
  destruct (jacobian_modes_agree_p2 (whole_grid 4 4) zero_field default_ctx 4 1
              empty_mat empty_mat 2 1)
    as (new1 & new2 & c1 & c2 & H1 & H2 & H3 & H4 & H5 & _).
  - simpl; lra.
  - unfold supported; lia.
  - unfold supported; lia.
  - unfold owned; simpl; lia.
  - exists new1, new2, c1, c2. repeat split; assumption.
Defined.

(** ** Differentiation *)

Section Differentiation.

Local Abbreviation D := derivable_pt_lim.

Lemma D_eq (f : R -> R) (t l l' : R) : D f t l -> l = l' -> D f t l'.
Proof. now intros H <-. Qed.

Lemma D_const (c t : R) : D (fun _ => c) t 0.
Proof. exact (derivable_pt_lim_const c t). Qed.

Lemma D_id (t : R) : D (fun s => s) t 1.
Proof. exact (derivable_pt_lim_id t). Qed.

Lemma D_plus (f g : R -> R) (t f' g' : R) :
  D f t f' -> D g t g' -> D (fun s => f s + g s) t (f' + g').
Proof. exact (derivable_pt_lim_plus f g t f' g'). Qed.

Lemma D_minus (f g : R -> R) (t f' g' : R) :
  D f t f' -> D g t g' -> D (fun s => f s - g s) t (f' - g').
Proof. exact (derivable_pt_lim_minus f g t f' g'). Qed.

Lemma D_mult (f g : R -> R) (t f' g' : R) :
  D f t f' -> D g t g' -> D (fun s => f s * g s) t (f' * g t + f t * g').
Proof. exact (derivable_pt_lim_mult f g t f' g'). Qed.

Lemma D_opp (f : R -> R) (t f' : R) : D f t f' -> D (fun s => - f s) t (- f').
Proof. exact (derivable_pt_lim_opp f t f'). Qed.

Lemma D_exp (f : R -> R) (t f' : R) :
  D f t f' -> D (fun s => PetscExpScalar (f s)) t (exp (f t) * f').
Proof.
  intros Hf.
  exact (derivable_pt_lim_comp f exp t f' (exp (f t)) Hf (derivable_pt_lim_exp (f t))).
Qed.

Variable ctx : AppCtx.
Hypothesis eps_nonzero : epsilon ctx <> 0.

Lemma eta_Rpower (ux uy : R) :
  eta ctx ux uy = Rpower (strain ctx ux uy) (0.5 * (p ctx - 2)).
Proof.
  unfold eta. fold (strain ctx ux uy). apply pow_pos. now apply strain_pos.
Qed.

(** [deta] is the derivative of [eta] in the strain. *)
Lemma deta_Rpower (ux uy : R) :
  deta ctx ux uy
  = 0.5 * (p ctx - 2) * Rpower (strain ctx ux uy) (0.5 * (p ctx - 2) - 1).
Proof.
  unfold deta. fold (strain ctx ux uy).
  destruct (Req_dec_T (p ctx) 2) as [Hp|Hp].
  - rewrite Hp. lra.
  - rewrite pow_pos by now apply strain_pos.
    replace (0.5 * (p ctx - 2) - 1) with (0.5 * (p ctx - 4)) by lra.
    ring.
Qed.

(** The chain rule through [eta]. *)
Lemma D_eta (a b : R -> R) (t a' b' : R) :
  D a t a' -> D b t b' ->
  D (fun s => eta ctx (a s) (b s)) t
    (deta ctx (a t) (b t) * (a t * a' + b t * b')).
Proof.
  intros Ha Hb.
  apply derivable_pt_lim_ext
    with (f := fun s => Rpower (strain ctx (a s) (b s)) (0.5 * (p ctx - 2))).
  { intros s. symmetry. apply eta_Rpower. }
  rewrite deta_Rpower.
  assert (Hstrain : D (fun s => strain ctx (a s) (b s)) t (a t * a' + b t * b')).
  { unfold strain.
    eapply D_eq.
    - apply D_plus; [apply D_const|].
      apply D_mult; [apply D_const|].
      apply D_plus; apply D_mult; eassumption.
    - cbv beta. dec_field. }
  exact (derivable_pt_lim_comp
           (fun s => strain ctx (a s) (b s))
           (fun z => Rpower z (0.5 * (p ctx - 2))) t _ _ Hstrain
           (derivable_pt_lim_power _ _ (strain_pos ctx (a t) (b t) eps_nonzero))).
Qed.

End Differentiation.

(** ** The residual as a function of the nine stencil values *)

(** The interior branch of [FormFunction_point] with the nine values it
    reads as arguments, named by compass direction:
    [sw s se] is row [j-1], [w c e] row [j], [nw n ne] row [j+1]. *)
Definition residual9 (hx hy : R) (ctx : AppCtx)
    (sw s se w c e nw n ne : R) : R :=
  let dhx := 1 / hx in
  let dhy := 1 / hy in
  let sc  := hx * hy * lambda ctx in
  let ux_E := dhx * (e - c) in
  let uy_E := 0.25 * dhy * (n + ne - s - se) in
  let ux_W := dhx * (c - w) in
  let uy_W := 0.25 * dhy * (nw + n - sw - s) in
  let ux_N := 0.25 * dhx * (e + ne - w - nw) in
  let uy_N := dhy * (n - c) in
  let ux_S := 0.25 * dhx * (se + e - sw - w) in
  let uy_S := dhy * (c - s) in
  let e_E := eta ctx ux_E uy_E in
  let e_W := eta ctx ux_W uy_W in
  let e_N := eta ctx ux_N uy_N in
  let e_S := eta ctx ux_S uy_S in
  let uxx := - hy * (e_E * ux_E - e_W * ux_W) in
  let uyy := - hx * (e_N * uy_N - e_S * uy_S) in
  uxx + uyy - sc * PetscExpScalar c.

(** The nine values of the [jtype = 4] branch of [FormJacobian_point], in
    the order of its columns. *)
Definition jacobian9 (hx hy : R) (ctx : AppCtx)
    (sw s se w c e nw n ne : R) : list R :=
  let sc    := hx * hy * lambda ctx in
  let dhx   := 1 / hx in
  let dhy   := 1 / hy in
  let hxdhy := hx / hy in
  let hydhx := hy / hx in
  let ux_E := dhx * (e - c) in
  let uy_E := 0.25 * dhy * (n + ne - s - se) in
  let ux_W := dhx * (c - w) in
  let uy_W := 0.25 * dhy * (nw + n - sw - s) in
  let ux_N := 0.25 * dhx * (e + ne - w - nw) in
  let uy_N := dhy * (n - c) in
  let ux_S := 0.25 * dhx * (se + e - sw - w) in
  let uy_S := dhy * (c - s) in
  let newt_E := newt ctx ux_E uy_E ux_E in
  let newt_W := newt ctx ux_W uy_W ux_W in
  let newt_N := newt ctx ux_N uy_N uy_N in
  let newt_S := newt ctx ux_S uy_S uy_S in
  let skew_E := skew ctx ux_E uy_E in
  let skew_W := skew ctx ux_W uy_W in
  let skew_N := skew ctx ux_N uy_N in
  let skew_S := skew ctx ux_S uy_S in
  let cross_EW := 0.25 * (skew_E - skew_W) in
  let cross_NS := 0.25 * (skew_N - skew_S) in
  [ - 0.25 * (skew_S + skew_W);
    - hxdhy * newt_S + cross_EW;
    0.25 * (skew_S + skew_E);
    - hydhx * newt_W + cross_NS;
    hxdhy * (newt_N + newt_S) + hydhx * (newt_E + newt_W) - sc * exp c;
    - hydhx * newt_E - cross_NS;
    0.25 * (skew_N + skew_W);
    - hxdhy * newt_N - cross_EW;
    - 0.25 * (skew_N + skew_E) ].

Fixpoint dot (u v : list R) : R :=
  match u, v with
  | a :: u', b :: v' => a * b + dot u' v'
  | _, _ => 0
  end.

Section TotalDerivative.

Local Abbreviation D := derivable_pt_lim.

Variables (hx hy : R) (ctx : AppCtx).
Hypothesis hx_nonzero : hx <> 0.
Hypothesis hy_nonzero : hy <> 0.
Hypothesis eps_nonzero : epsilon ctx <> 0.

Variables (SW S_ SE W C E NW N NE : R -> R).
Variables (t dSW dS dSE dW dC dE dNW dN dNE : R).
Hypothesis HSW : D SW t dSW.
Hypothesis HS  : D S_ t dS.
Hypothesis HSE : D SE t dSE.
Hypothesis HW  : D W t dW.
Hypothesis HC  : D C t dC.
Hypothesis HE  : D E t dE.
Hypothesis HNW : D NW t dNW.
Hypothesis HN  : D N t dN.
Hypothesis HNE : D NE t dNE.

Ltac derive :=
  repeat first
    [ apply D_const
    | eassumption
    | apply D_id
    | apply (D_eta ctx eps_nonzero)
    | apply D_exp
    | apply D_plus
    | apply D_minus
    | apply D_opp
    | apply D_mult ].

(** When the nine stencil values move along differentiable curves, the
    residual moves with the velocity the [jtype = 4] row predicts. *)
Lemma residual9_derivative :
  D (fun r => residual9 hx hy ctx (SW r) (S_ r) (SE r) (W r) (C r) (E r)
                (NW r) (N r) (NE r))
    t
    (dot (jacobian9 hx hy ctx (SW t) (S_ t) (SE t) (W t) (C t) (E t)
            (NW t) (N t) (NE t))
         [dSW; dS; dSE; dW; dC; dE; dNW; dN; dNE]).
Proof.
  unfold residual9. cbv zeta.
  eapply D_eq; [derive|].
  unfold jacobian9, dot, newt, skew. cbv beta zeta.
  dec_field. split; assumption.
Qed.

End TotalDerivative.

(** ** The exact Newton row *)

Lemma D_store (x : Field) (cj ci j' i' : Z) (t : R) :
  derivable_pt_lim (fun r => store x cj ci r j' i') t
    (if ((j' =? cj) && (i' =? ci))%Z then 1 else 0).
Proof.
  unfold store. destruct ((j' =? cj) && (i' =? ci))%Z; [apply D_id | apply D_const].
Qed.

Lemma store_id (x : Field) (cj ci j' i' : Z) :
  store x cj ci (x cj ci) j' i' = x j' i'.
Proof.
  unfold store. destruct (Z.eqb_spec j' cj), (Z.eqb_spec i' ci); subst; reflexivity.
Qed.

Lemma FormFunction_point_interior (info : DMDALocalInfo) (x : Field) (user : AppCtx)
    (j i : Z) :
  on_boundary (mx info) (my info) j i = false ->
  FormFunction_point info x user j i
  = residual9 (1 / IZR (mx info - 1)) (1 / IZR (my info - 1)) user
      (x (j-1)%Z (i-1)%Z) (x (j-1)%Z i) (x (j-1)%Z (i+1)%Z)
      (x j (i-1)%Z)       (x j i)       (x j (i+1)%Z)
      (x (j+1)%Z (i-1)%Z) (x (j+1)%Z i) (x (j+1)%Z (i+1)%Z).
Proof. intros Hb. unfold FormFunction_point. cbv zeta. rewrite Hb. reflexivity. Qed.

Lemma point_calls_full (info : DMDALocalInfo) (x : Field) (user : AppCtx) (j i : Z) :
  jtype user = 4%Z ->
  on_boundary (mx info) (my info) j i = false ->
  point_calls info x user j i
  = [ mkSetValues (mkStencil j i)
        [ mkStencil (j-1) (i-1); mkStencil (j-1) i; mkStencil (j-1) (i+1);
          mkStencil j (i-1);     mkStencil j i;     mkStencil j (i+1);
          mkStencil (j+1) (i-1); mkStencil (j+1) i; mkStencil (j+1) (i+1) ]
        (jacobian9 (1 / IZR (mx info - 1)) (1 / IZR (my info - 1)) user
           (x (j-1)%Z (i-1)%Z) (x (j-1)%Z i) (x (j-1)%Z (i+1)%Z)
           (x j (i-1)%Z)       (x j i)       (x j (i+1)%Z)
           (x (j+1)%Z (i-1)%Z) (x (j+1)%Z i) (x (j+1)%Z (i+1)%Z)) ].
Proof.
  intros H4 Hb. unfold point_calls, FormJacobian_point. cbv zeta.
  rewrite Hb, H4.
  cbn [MatSetValuesStencil fst calls empty_mat app].
  unfold jacobian9, newt, skew, PetscSqr, PetscExpScalar, edge_gradients.
  cbv zeta. cbn [ux_E uy_E ux_W uy_W ux_N uy_N ux_S uy_S].
  do 2 f_equal. vals_eq.
Qed.

(** The five values of the [jtype = 3] branch are the axis entries of the
    nine of [jtype = 4]. *)
Lemma point_calls_star (info : DMDALocalInfo) (x : Field) (user : AppCtx) (j i : Z) :
  jtype user = 3%Z ->
  on_boundary (mx info) (my info) j i = false ->
  let J := jacobian9 (1 / IZR (mx info - 1)) (1 / IZR (my info - 1)) user
             (x (j-1)%Z (i-1)%Z) (x (j-1)%Z i) (x (j-1)%Z (i+1)%Z)
             (x j (i-1)%Z)       (x j i)       (x j (i+1)%Z)
             (x (j+1)%Z (i-1)%Z) (x (j+1)%Z i) (x (j+1)%Z (i+1)%Z) in
  point_calls info x user j i
  = [ mkSetValues (mkStencil j i)
        [ mkStencil (j-1) i; mkStencil j (i-1); mkStencil j i;
          mkStencil j (i+1); mkStencil (j+1) i ]
        [ nth 1 J 0; nth 3 J 0; nth 4 J 0; nth 5 J 0; nth 7 J 0 ] ].
Proof.
  intros H3 Hb J. unfold point_calls, FormJacobian_point. cbv zeta.
  rewrite Hb, H3.
  cbn [MatSetValuesStencil fst calls empty_mat app].
  unfold J, jacobian9, newt, skew, PetscSqr, PetscExpScalar, edge_gradients.
  cbv zeta. cbn [ux_E uy_E ux_W uy_W ux_N uy_N ux_S uy_S nth].
  do 2 f_equal. vals_eq.
Qed.

Lemma mesh_width_nonzero (n k : Z) : (0 < k < n)%Z -> 1 / IZR n <> 0.
Proof.
  intros H. assert (0 < IZR n) by (apply IZR_lt; lia).
  assert (0 < 1 / IZR n) by (apply Rdiv_lt_0_compat; lra). lra.
Qed.

(** Decide each integer equality test of the goal on its own. *)
Ltac zeqb_decide :=
  repeat match goal with
    | |- context [(?a =? ?b)%Z] =>
        first [ replace (a =? b)%Z with true by (symmetry; apply Z.eqb_eq; lia)
              | replace (a =? b)%Z with false by (symmetry; apply Z.eqb_neq; lia) ]
    end;
  cbn [andb].

(** The derivative of the residual at an owned interior point in the
    field value at the stencil position [(cj,ci)]. *)
Lemma residual_partial (info : DMDALocalInfo) (x f : Field) (user : AppCtx)
    (j i cj ci : Z) :
  epsilon user <> 0 ->
  owned info j i ->
  interior (mx info) (my info) j i ->
  let hit (j' i' : Z) : R := if ((j' =? cj) && (i' =? ci))%Z then 1 else 0 in
  derivable_pt_lim
    (fun r => FormFunctionLocal info (store x cj ci r) f user j i)
    (x cj ci)
    (dot (jacobian9 (1 / IZR (mx info - 1)) (1 / IZR (my info - 1)) user
            (x (j-1)%Z (i-1)%Z) (x (j-1)%Z i) (x (j-1)%Z (i+1)%Z)
            (x j (i-1)%Z)       (x j i)       (x j (i+1)%Z)
            (x (j+1)%Z (i-1)%Z) (x (j+1)%Z i) (x (j+1)%Z (i+1)%Z))
         [ hit (j-1)%Z (i-1)%Z; hit (j-1)%Z i; hit (j-1)%Z (i+1)%Z;
           hit j (i-1)%Z;       hit j i;       hit j (i+1)%Z;
           hit (j+1)%Z (i-1)%Z; hit (j+1)%Z i; hit (j+1)%Z (i+1)%Z ]).
Proof.
  intros He Ho Hi hit.
  assert (Hb := on_boundary_interior _ _ _ _ Hi).
  destruct Hi as [Hi Hj].
  apply derivable_pt_lim_ext
    with (f := fun r =>
                 residual9 (1 / IZR (mx info - 1)) (1 / IZR (my info - 1)) user
                   (store x cj ci r (j-1)%Z (i-1)%Z) (store x cj ci r (j-1)%Z i)
                   (store x cj ci r (j-1)%Z (i+1)%Z)
                   (store x cj ci r j (i-1)%Z) (store x cj ci r j i)
                   (store x cj ci r j (i+1)%Z)
                   (store x cj ci r (j+1)%Z (i-1)%Z) (store x cj ci r (j+1)%Z i)
                   (store x cj ci r (j+1)%Z (i+1)%Z)).
  { intros r. rewrite FormFunctionLocal_owned by assumption.
    symmetry. now apply FormFunction_point_interior. }
  eapply D_eq.
  - apply residual9_derivative;
      [ apply (mesh_width_nonzero _ i Hi) | apply (mesh_width_nonzero _ j Hj)
      | exact He | apply D_store .. ].
  - cbv beta. rewrite !store_id. reflexivity.
Qed.

(** C2. With [jtype = 4] (and [epsilon <> 0], the standing precondition on
    the regularisation) the row of an owned interior point is set by one
    call with nine columns: the axis entries are built from
    [newt_* = eta + deta*(gradient component)^2] and are the five values
    [jtype = 3] sets for the same problem; the diagonal neighbours
    receive [SW = -0.25*(skew_S+skew_W)], [SE = 0.25*(skew_S+skew_E)],
    [NW = 0.25*(skew_N+skew_W)], [NE = -0.25*(skew_N+skew_E)]; and each of
    the nine values is the partial derivative of the residual at [(i,j)]
    in the field value of its column. *)
Theorem jacobian_full_row (info : DMDALocalInfo) (x f : Field) (user : AppCtx)
    (B : Mat) (j i : Z) :
  jtype user = 4%Z ->
  epsilon user <> 0 ->
  owned info j i ->
  interior (mx info) (my info) j i ->
  let hx := 1 / IZR (mx info - 1) in
  let hy := 1 / IZR (my info - 1) in
  let g := edge_gradients (1 / hx) (1 / hy) x j i in
  let newt_E := newt user (ux_E g) (uy_E g) (ux_E g) in
  let newt_W := newt user (ux_W g) (uy_W g) (ux_W g) in
  let newt_N := newt user (ux_N g) (uy_N g) (uy_N g) in
  let newt_S := newt user (ux_S g) (uy_S g) (uy_S g) in
  let skew_E := skew user (ux_E g) (uy_E g) in
  let skew_W := skew user (ux_W g) (uy_W g) in
  let skew_N := skew user (ux_N g) (uy_N g) in
  let skew_S := skew user (ux_S g) (uy_S g) in
  let cross_EW := 0.25 * (skew_E - skew_W) in
  let cross_NS := 0.25 * (skew_N - skew_S) in
  let cols :=
    [ mkStencil (j-1) (i-1); mkStencil (j-1) i; mkStencil (j-1) (i+1);
      mkStencil j (i-1);     mkStencil j i;     mkStencil j (i+1);
      mkStencil (j+1) (i-1); mkStencil (j+1) i; mkStencil (j+1) (i+1) ] in
  let vals :=
    [ - 0.25 * (skew_S + skew_W);
      - hx / hy * newt_S + cross_EW;
      0.25 * (skew_S + skew_E);
      - hy / hx * newt_W + cross_NS;
      hx / hy * (newt_N + newt_S) + hy / hx * (newt_E + newt_W)
        - hx * hy * lambda user * exp (x j i);
      - hy / hx * newt_E - cross_NS;
      0.25 * (skew_N + skew_W);
      - hx / hy * newt_N - cross_EW;
      - 0.25 * (skew_N + skew_E) ] in
  exists new : list SetValues,
    FormJacobianLocal info x user B = (mkMat (calls B ++ new) true true, inr tt)
    /\ filter (is_row j i) new = [mkSetValues (mkStencil j i) cols vals]
    /\ (exists new3 : list SetValues,
          FormJacobianLocal info x (with_jtype user 3) B
          = (mkMat (calls B ++ new3) true true, inr tt)
          /\ filter (is_row j i) new3
             = [ mkSetValues (mkStencil j i)
                   [ mkStencil (j-1) i; mkStencil j (i-1); mkStencil j i;
                     mkStencil j (i+1); mkStencil (j+1) i ]
                   [ nth 1 vals 0; nth 3 vals 0; nth 4 vals 0;
                     nth 5 vals 0; nth 7 vals 0 ] ])
    /\ Forall2
         (fun col v =>
            derivable_pt_lim
              (fun r => FormFunctionLocal info (store x (st_j col) (st_i col) r)
                          f user j i)
              (x (st_j col) (st_i col)) v)
         cols vals.
Proof.
  intros H4 He Ho Hi hx hy g newt_E newt_W newt_N newt_S skew_E skew_W skew_N skew_S
         cross_EW cross_NS cols vals.
  assert (Hb := on_boundary_interior _ _ _ _ Hi).
  assert (Hvals : jacobian9 hx hy user
                    (x (j-1)%Z (i-1)%Z) (x (j-1)%Z i) (x (j-1)%Z (i+1)%Z)
                    (x j (i-1)%Z)       (x j i)       (x j (i+1)%Z)
                    (x (j+1)%Z (i-1)%Z) (x (j+1)%Z i) (x (j+1)%Z (i+1)%Z)
                  = vals).
  { unfold jacobian9, vals, cross_EW, cross_NS, skew_E, skew_W, skew_N, skew_S,
           newt_E, newt_W, newt_N, newt_S, g, edge_gradients.
    cbv zeta. cbn [ux_E uy_E ux_W uy_W ux_N uy_N ux_S uy_S].
    vals_eq. }
  exists (all_calls info x user). split; [|split; [|split]].
  - apply FormJacobianLocal_supported. unfold supported. tauto.
  - rewrite row_of_owned by assumption.
    rewrite point_calls_full by assumption.
    fold hx hy. rewrite Hvals. reflexivity.
  - exists (all_calls info x (with_jtype user 3)). split.
    + apply FormJacobianLocal_supported. unfold supported. cbn [jtype with_jtype]. tauto.
    + rewrite row_of_owned by assumption.
      rewrite (point_calls_star info x (with_jtype user 3) j i eq_refl Hb).
      fold hx hy.
      change (jacobian9 hx hy (with_jtype user 3)) with (jacobian9 hx hy user).
      rewrite Hvals. reflexivity.
  - assert (Hpart := fun cj ci => residual_partial info x f user j i cj ci He Ho Hi).
    cbv zeta in Hpart. fold hx hy in Hpart. rewrite Hvals in Hpart.
    unfold cols.
    repeat (apply Forall2_cons; [cbn [st_j st_i]|]); try apply Forall2_nil.
    all: eapply D_eq; [apply Hpart|].
    all: zeqb_decide; unfold vals, dot; ring.
Qed.

(** The problem with [p = 3] and the exact Newton Jacobian. *)
Definition p3_ctx : AppCtx := mkAppCtx 6.0 3 1e-5 4.

Lemma jacobian_full_row_witness :
  exists new : list SetValues,
    FormJacobianLocal (whole_grid 4 4) (fun j i => IZR (j * i)) p3_ctx empty_mat
    = (mkMat (calls empty_mat ++ new) true true, inr tt)
    /\ List.length (filter (is_row 1 2) new) = 1%nat.
Proof.
  destruct (jacobian_full_row (whole_grid 4 4) (fun j i => IZR (j * i)) zero_field
              p3_ctx empty_mat 1 2) as (new & Hrun & Hrow & _).
  - reflexivity.
  - simpl. lra.
  - unfold owned; simpl; lia.
  - unfold interior; simpl; lia.
  - exists new. split; [exact Hrun|]. rewrite Hrow. reflexivity.
Defined.

(** * Further properties of the callbacks *)

(** ** What the two array-filling callbacks write *)

Lemma FormFunctionLocal_not_owned (info : DMDALocalInfo) (x f : Field) (user : AppCtx)
    (j i : Z) :
  ~ owned info j i ->
  FormFunctionLocal info x f user j i = f j i.
Proof.
  intros H. unfold FormFunctionLocal.
  apply (fill_not_owned (fun j i => FormFunction_point info x user j i)); assumption.
Qed.

Lemma FormInitialGuess_not_owned (dm : DMDALocalInfo) (x : Field) (j i : Z) :
  ~ owned dm j i ->
  FormInitialGuess dm x j i = x j i.
Proof.
  intros H. unfold FormInitialGuess.
  apply (fill_not_owned (fun j i => InitialGuess_point (mx dm) (my dm) j i)); assumption.
Qed.

(** X1. [FormFunctionLocal] writes the residual array at the owned points
    only: every other entry keeps its value, and at an owned point the
    result does not depend on what the array held before (it is
    overwritten, not accumulated). *)
Theorem residual_writes_owned_only (info : DMDALocalInfo) (x f f' : Field)
    (user : AppCtx) (j i : Z) :
  (~ owned info j i -> FormFunctionLocal info x f user j i = f j i)
  /\ (owned info j i ->
      FormFunctionLocal info x f user j i = FormFunctionLocal info x f' user j i).
Proof.
  split.
  - apply FormFunctionLocal_not_owned.
  - intros Ho. now rewrite !FormFunctionLocal_owned.
Qed.

Lemma residual_writes_owned_only_witness :
  FormFunctionLocal (mkInfo 4 4 0 0 2 4) zero_field (fun _ _ => 7) default_ctx 1%Z 3%Z = 7
  /\ FormFunctionLocal (mkInfo 4 4 0 0 2 4) zero_field (fun _ _ => 7) default_ctx 1%Z 1%Z
     = FormFunctionLocal (mkInfo 4 4 0 0 2 4) zero_field (fun _ _ => 8) default_ctx 1%Z 1%Z.
Proof.
  split.
  - destruct (residual_writes_owned_only (mkInfo 4 4 0 0 2 4) zero_field (fun _ _ => 7)
                (fun _ _ => 7) default_ctx 1 3) as [Hout _].
    apply Hout. unfold owned; simpl; lia.
  - destruct (residual_writes_owned_only (mkInfo 4 4 0 0 2 4) zero_field (fun _ _ => 7)
                (fun _ _ => 8) default_ctx 1 1) as [_ Hin].
    apply Hin. unfold owned; simpl; lia.
Defined.

(** X2. [FormInitialGuess] writes the owned points only, and what it writes
    there does not depend on the vector it is given. *)
Theorem initial_guess_writes_owned_only (dm : DMDALocalInfo) (x x' : Field) (j i : Z) :
  (~ owned dm j i -> FormInitialGuess dm x j i = x j i)
  /\ (owned dm j i -> FormInitialGuess dm x j i = FormInitialGuess dm x' j i).
Proof.
  split.
  - apply FormInitialGuess_not_owned.
  - intros Ho. now rewrite !FormInitialGuess_owned.
Qed.

Lemma initial_guess_writes_owned_only_witness :
  FormInitialGuess (mkInfo 4 4 2 0 2 4) (fun _ _ => 7) 1%Z 1%Z = 7
  /\ FormInitialGuess (mkInfo 4 4 2 0 2 4) (fun _ _ => 7) 1%Z 2%Z
     = FormInitialGuess (mkInfo 4 4 2 0 2 4) zero_field 1%Z 2%Z.
Proof.
  split.
  - destruct (initial_guess_writes_owned_only (mkInfo 4 4 2 0 2 4) (fun _ _ => 7)
                (fun _ _ => 7) 1 1) as [Hout _].
    apply Hout. unfold owned; simpl; lia.
  - destruct (initial_guess_writes_owned_only (mkInfo 4 4 2 0 2 4) (fun _ _ => 7)
                zero_field 1 2) as [_ Hin].
    apply Hin. unfold owned; simpl; lia.
Defined.

(** ** The stencil has width one *)

(** Two fields agree on the 3 x 3 block of grid points around [(i,j)]. *)
Definition agree_on_stencil (x y : Field) (j i : Z) : Prop :=
  forall dj di : Z,
    (-1 <= dj <= 1)%Z -> (-1 <= di <= 1)%Z ->
    x (j + dj)%Z (i + di)%Z = y (j + dj)%Z (i + di)%Z.

Lemma agree_on_stencil_at (x y : Field) (j i j' i' : Z) :
  agree_on_stencil x y j i ->
  (j - 1 <= j' <= j + 1)%Z -> (i - 1 <= i' <= i + 1)%Z ->
  x j' i' = y j' i'.
Proof.
  intros H Hj Hi.
  specialize (H (j' - j)%Z (i' - i)%Z).
  replace (j + (j' - j))%Z with j' in H by lia.
  replace (i + (i' - i))%Z with i' in H by lia.
  apply H; lia.
Qed.

Lemma edge_gradients_local (dhx dhy : R) (x y : Field) (j i : Z) :
  agree_on_stencil x y j i ->
  edge_gradients dhx dhy x j i = edge_gradients dhx dhy y j i.
Proof.
  intros H. unfold edge_gradients.
  rewrite !(agree_on_stencil_at x y j i _ _ H) by lia.
  reflexivity.
Qed.

(** X3. The residual at an owned point reads the field on the 3 x 3 block
    around the point only: two fields that agree there give the same
    residual (one layer of ghost values is enough). *)
Theorem residual_local (info : DMDALocalInfo) (x y f : Field) (user : AppCtx)
    (j i : Z) :
  owned info j i ->
  agree_on_stencil x y j i ->
  FormFunctionLocal info x f user j i = FormFunctionLocal info y f user j i.
Proof.
  intros Ho H. rewrite !FormFunctionLocal_owned by assumption.
  unfold FormFunction_point. cbv zeta.
  rewrite (edge_gradients_local _ _ x y j i H).
  rewrite (agree_on_stencil_at x y j i j i H) by lia.
  reflexivity.
Qed.

Lemma residual_local_witness :
  FormFunctionLocal (whole_grid 6 6) (fun j i => IZR (j * i)) zero_field p3_ctx 2%Z 2%Z
  = FormFunctionLocal (whole_grid 6 6)
      (store (fun j i => IZR (j * i)) 4 2 100) zero_field p3_ctx 2%Z 2%Z.
Proof.
  apply (residual_local (whole_grid 6 6) (fun j i => IZR (j * i))
           (store (fun j i => IZR (j * i)) 4 2 100) zero_field p3_ctx 2 2).
  - unfold owned; simpl; lia.
  - intros dj di Hj Hi. symmetry. apply store_other. lia.
Defined.

(** ** The initial guess *)

Lemma in_grid_cases (Mx My j i : Z) :
  in_grid Mx My j i -> boundary Mx My j i \/ interior Mx My j i.
Proof. unfold in_grid, boundary, interior. lia. Qed.

Lemma bump_le_1 (t : R) : 1 - t * t <= 1.
Proof. nra. Qed.

(** X4. At every owned point of the grid the initial guess lies between
    [0] and [1]. *)
Theorem initial_guess_bounds (dm : DMDALocalInfo) (x : Field) (j i : Z) :
  owned dm j i ->
  in_grid (mx dm) (my dm) j i ->
  0 <= FormInitialGuess dm x j i <= 1.
Proof.
  intros Ho Hg. rewrite FormInitialGuess_owned by assumption.
  unfold InitialGuess_point.
  destruct (in_grid_cases _ _ _ _ Hg) as [Hb|Hint].
  - apply on_boundary_true in Hb. rewrite Hb. lra.
  - rewrite (on_boundary_interior _ _ _ _ Hint). cbv zeta.
    destruct Hint as [Hi Hj].
    assert (Hx := bump_positive (mx dm - 1) i Hi).
    assert (Hy := bump_positive (my dm - 1) j Hj).
    cbv zeta in Hx, Hy.
    assert (Hx1 := bump_le_1 (2 * IZR i / IZR (mx dm - 1) - 1)).
    assert (Hy1 := bump_le_1 (2 * IZR j / IZR (my dm - 1) - 1)).
    split; nra.
Qed.

Lemma initial_guess_bounds_witness :
  0 <= FormInitialGuess (whole_grid 5 7) zero_field 3%Z 1%Z <= 1.
Proof.
  apply (initial_guess_bounds (whole_grid 5 7) zero_field 3 1).
  - unfold owned; simpl; lia.
  - unfold in_grid; simpl; lia.
Defined.

(** X6. The initial guess meets the Dirichlet condition the residual
    enforces: the residual of the field [FormInitialGuess] produces is [0]
    at every owned boundary point, for every context. *)
Theorem initial_guess_residual_boundary (dm : DMDALocalInfo) (x0 f : Field)
    (user : AppCtx) (j i : Z) :
  owned dm j i ->
  boundary (mx dm) (my dm) j i ->
  FormFunctionLocal dm (FormInitialGuess dm x0) f user j i = 0.
Proof.
  intros Ho Hb.
  rewrite FormFunctionLocal_owned, FormFunction_point_boundary by assumption.
  rewrite FormInitialGuess_owned by assumption.
  unfold InitialGuess_point.
  apply on_boundary_true in Hb. now rewrite Hb.
Qed.

Lemma initial_guess_residual_boundary_witness :
  FormFunctionLocal (whole_grid 5 7) (FormInitialGuess (whole_grid 5 7) (fun _ _ => 3))
    (fun _ _ => 9) p3_ctx 6%Z 2%Z = 0.
Proof.
  apply (initial_guess_residual_boundary (whole_grid 5 7) (fun _ _ => 3)).
  - unfold owned; simpl; lia.
  - unfold boundary; simpl; lia.
Defined.

(** ** Rows of the Jacobian *)

Lemma point_calls_boundary (info : DMDALocalInfo) (x : Field) (user : AppCtx) (j i : Z) :
  boundary (mx info) (my info) j i ->
  point_calls info x user j i = [mkSetValues (mkStencil j i) [mkStencil j i] [1]].
Proof.
  intros Hb. unfold point_calls.
  now rewrite (point_boundary info x user j i Hb empty_mat).
Qed.

(** X7. For every supported [jtype] (and every [p], [epsilon], [lambda]) the
    row of an owned boundary point is set by one call holding the single
    value [1] on the diagonal, and this row is the exact derivative of the
    boundary residual: its entry in any column is the partial derivative of
    the residual at the point in the field value of that column. *)
Theorem jacobian_boundary_row (info : DMDALocalInfo) (x f : Field) (user : AppCtx)
    (B : Mat) (j i : Z) :
  supported (jtype user) ->
  owned info j i ->
  boundary (mx info) (my info) j i ->
  let row := mkSetValues (mkStencil j i) [mkStencil j i] [1] in
  exists new : list SetValues,
    FormJacobianLocal info x user B = (mkMat (calls B ++ new) true true, inr tt)
    /\ filter (is_row j i) new = [row]
    /\ forall col : MatStencil,
         derivable_pt_lim
           (fun r => FormFunctionLocal info (store x (st_j col) (st_i col) r) f user j i)
           (x (st_j col) (st_i col))
           (entry row col).
Proof.
  intros Hs Ho Hb row.
  exists (all_calls info x user). split; [|split].
  - now apply FormJacobianLocal_supported.
  - rewrite row_of_owned by assumption. now apply point_calls_boundary.
  - intros col.
    apply derivable_pt_lim_ext
      with (f := fun r => store x (st_j col) (st_i col) r j i).
    { intros r. rewrite FormFunctionLocal_owned by assumption.
      symmetry. now apply FormFunction_point_boundary. }
    eapply D_eq; [apply D_store|].
    unfold entry, row. cbn [sv_cols sv_vals lookup_col]. unfold stencil_eqb.
    cbn [st_j st_i]. reflexivity.
Qed.

Lemma jacobian_boundary_row_witness :
  exists new : list SetValues,
    FormJacobianLocal (whole_grid 4 4) zero_field p3_ctx empty_mat
    = (mkMat (calls empty_mat ++ new) true true, inr tt)
    /\ filter (is_row 0 2) new = [mkSetValues (mkStencil 0 2) [mkStencil 0 2] [1]].
Proof.
  destruct (jacobian_boundary_row (whole_grid 4 4) zero_field zero_field p3_ctx
              empty_mat 0 2) as (new & Hrun & Hrow & _).
  - unfold supported; simpl; lia.
  - unfold owned; simpl; lia.
  - unfold boundary; simpl; lia.
  - exists new. split; assumption.
Defined.

(** X8. With [jtype = 1] the row of every owned point is the row of the
    linear problem ([laplace_row]: the identity on the boundary, the fixed
    five point Laplacian with the reaction term elsewhere); it depends
    neither on [p] nor on [epsilon], and on the field only through the
    value at the point itself. *)
Theorem jacobian_plain_row (info : DMDALocalInfo) (x y : Field) (user user' : AppCtx)
    (B : Mat) (j i : Z) :
  jtype user = 1%Z -> jtype user' = 1%Z ->
  lambda user' = lambda user ->
  y j i = x j i ->
  owned info j i ->
  exists new new' : list SetValues,
    FormJacobianLocal info x user B = (mkMat (calls B ++ new) true true, inr tt)
    /\ FormJacobianLocal info y user' B = (mkMat (calls B ++ new') true true, inr tt)
    /\ filter (is_row j i) new = [laplace_row info x user j i]
    /\ filter (is_row j i) new' = [laplace_row info x user j i].
Proof.
  intros H1 H1' Hl Hxy Ho.
  assert (Hrow : forall (z : Field) (u : AppCtx),
             jtype u = 1%Z ->
             point_calls info z u j i = [laplace_row info z u j i]).
  { intros z u Hu. unfold point_calls, FormJacobian_point, laplace_row. cbv zeta.
    destruct (on_boundary (mx info) (my info) j i); [reflexivity|].
    rewrite Hu. cbn [MatSetValuesStencil fst calls empty_mat app st_j st_i].
    unfold PetscExpScalar. do 2 f_equal. vals_eq. }
  exists (all_calls info x user), (all_calls info y user').
  split; [apply FormJacobianLocal_supported; unfold supported; tauto|].
  split; [apply FormJacobianLocal_supported; unfold supported; tauto|].
  rewrite !row_of_owned by assumption.
  rewrite !Hrow by assumption. split; [reflexivity|].
  unfold laplace_row. rewrite Hl, Hxy. reflexivity.
Qed.

Lemma jacobian_plain_row_witness :
  exists new new' : list SetValues,
    FormJacobianLocal (whole_grid 4 4) zero_field scenario_ctx empty_mat
    = (mkMat (calls empty_mat ++ new) true true, inr tt)
    /\ FormJacobianLocal (whole_grid 4 4) (store zero_field 2 2 5)
         (mkAppCtx 6.0 3 0 1) empty_mat
       = (mkMat (calls empty_mat ++ new') true true, inr tt)
    /\ filter (is_row 1 1) new = filter (is_row 1 1) new'.
Proof.
  destruct (jacobian_plain_row (whole_grid 4 4) zero_field (store zero_field 2 2 5)
              scenario_ctx (mkAppCtx 6.0 3 0 1) empty_mat 1 1)
    as (new & new' & H1 & H2 & H3 & H4).
  - reflexivity.
  - reflexivity.
  - reflexivity.
  - apply store_other. lia.
  - unfold owned; simpl; lia.
  - exists new, new'. split; [exact H1|]. split; [exact H2|]. now rewrite H3, H4.
Defined.

Lemma point_calls_picard (info : DMDALocalInfo) (x : Field) (user : AppCtx) (j i : Z) :
  jtype user = 2%Z ->
  on_boundary (mx info) (my info) j i = false ->
  let hx := 1 / IZR (mx info - 1) in
  let hy := 1 / IZR (my info - 1) in
  let g := edge_gradients (1 / hx) (1 / hy) x j i in
  point_calls info x user j i
  = [ mkSetValues (mkStencil j i)
        [ mkStencil (j-1) i; mkStencil j (i-1); mkStencil j i;
          mkStencil j (i+1); mkStencil (j+1) i ]
        [ - (hx / hy) * eta user (ux_S g) (uy_S g);
          - (hy / hx) * eta user (ux_W g) (uy_W g);
          (eta user (ux_W g) (uy_W g) + eta user (ux_E g) (uy_E g)) * (hy / hx)
            + (eta user (ux_S g) (uy_S g) + eta user (ux_N g) (uy_N g)) * (hx / hy)
            - hx * hy * lambda user * exp (x j i);
          - (hy / hx) * eta user (ux_E g) (uy_E g);
          - (hx / hy) * eta user (ux_N g) (uy_N g) ] ].
Proof.
  intros H2 Hb hx hy g. unfold point_calls, FormJacobian_point. cbv zeta.
  rewrite Hb, H2. reflexivity.
Qed.

(** X9. With [jtype = 2] (Picard) the row of an owned interior point has the
    five star columns with the values [-hx/hy*eta_S], [-hy/hx*eta_W],
    [(eta_W+eta_E)*hy/hx + (eta_S+eta_N)*hx/hy - hx*hy*lambda*exp(u)],
    [-hy/hx*eta_E], [-hx/hy*eta_N]; no [deta] enters.  Applied to the field
    itself the row gives back the flux part of the residual: the sum of
    value times field value over the five columns is the residual plus
    [hx*hy*lambda*exp(u)*(1 - u)]. *)
Theorem jacobian_picard_row (info : DMDALocalInfo) (x f : Field) (user : AppCtx)
    (B : Mat) (j i : Z) :
  jtype user = 2%Z ->
  owned info j i ->
  interior (mx info) (my info) j i ->
  let hx := 1 / IZR (mx info - 1) in
  let hy := 1 / IZR (my info - 1) in
  let g := edge_gradients (1 / hx) (1 / hy) x j i in
  let eta_E := eta user (ux_E g) (uy_E g) in
  let eta_W := eta user (ux_W g) (uy_W g) in
  let eta_N := eta user (ux_N g) (uy_N g) in
  let eta_S := eta user (ux_S g) (uy_S g) in
  let vals :=
    [ - (hx / hy) * eta_S;
      - (hy / hx) * eta_W;
      (eta_W + eta_E) * (hy / hx) + (eta_S + eta_N) * (hx / hy)
        - hx * hy * lambda user * exp (x j i);
      - (hy / hx) * eta_E;
      - (hx / hy) * eta_N ] in
  exists new : list SetValues,
    FormJacobianLocal info x user B = (mkMat (calls B ++ new) true true, inr tt)
    /\ filter (is_row j i) new
       = [ mkSetValues (mkStencil j i)
             [ mkStencil (j-1) i; mkStencil j (i-1); mkStencil j i;
               mkStencil j (i+1); mkStencil (j+1) i ]
             vals ]
    /\ dot vals [ x (j-1)%Z i; x j (i-1)%Z; x j i; x j (i+1)%Z; x (j+1)%Z i ]
       = FormFunctionLocal info x f user j i
         + hx * hy * lambda user * exp (x j i) * (1 - x j i).
Proof.
  intros H2 Ho Hi hx hy g eta_E eta_W eta_N eta_S vals.
  assert (Hb := on_boundary_interior _ _ _ _ Hi).
  exists (all_calls info x user). split; [|split].
  - apply FormJacobianLocal_supported. unfold supported. tauto.
  - rewrite row_of_owned by assumption.
    now rewrite (point_calls_picard info x user j i H2 Hb).
  - rewrite FormFunctionLocal_owned by assumption.
    unfold FormFunction_point. cbv zeta. rewrite Hb.
    fold hx hy. fold g. fold eta_E eta_W eta_N eta_S.
    unfold vals, dot, PetscExpScalar.
    assert (HxE : ux_E g = 1 / hx * (x j (i+1)%Z - x j i)) by reflexivity.
    assert (HxW : ux_W g = 1 / hx * (x j i - x j (i-1)%Z)) by reflexivity.
    assert (HyN : uy_N g = 1 / hy * (x (j+1)%Z i - x j i)) by reflexivity.
    assert (HyS : uy_S g = 1 / hy * (x j i - x (j-1)%Z i)) by reflexivity.
    rewrite HxE, HxW, HyN, HyS. unfold Rdiv. ring.
Qed.

Lemma jacobian_picard_row_witness :
  exists new : list SetValues,
    FormJacobianLocal (whole_grid 4 4) (fun j i => IZR (j * i)) (mkAppCtx 6.0 3 1e-5 2)
      empty_mat
    = (mkMat (calls empty_mat ++ new) true true, inr tt)
    /\ List.length (filter (is_row 2 1) new) = 1%nat.
Proof.
  destruct (jacobian_picard_row (whole_grid 4 4) (fun j i => IZR (j * i)) zero_field
              (mkAppCtx 6.0 3 1e-5 2) empty_mat 2 1) as (new & Hrun & Hrow & _).
  - reflexivity.
  - unfold owned; simpl; lia.
  - unfold interior; simpl; lia.
  - exists new. split; [exact Hrun|]. rewrite Hrow. reflexivity.
Defined.

(** The sum of the values of a call. *)
Definition row_sum (c : SetValues) : R := fold_right Rplus 0 (sv_vals c).

Lemma point_calls_row_sum (info : DMDALocalInfo) (x : Field) (user : AppCtx) (j i : Z) :
  supported (jtype user) ->
  on_boundary (mx info) (my info) j i = false ->
  exists c : SetValues,
    point_calls info x user j i = [c]
    /\ row_sum c
       = - (1 / IZR (mx info - 1) * (1 / IZR (my info - 1)) * lambda user * exp (x j i)).
Proof.
  intros Hs Hb. unfold point_calls, FormJacobian_point. cbv zeta. rewrite Hb.
  destruct Hs as [H|[H|[H|H]]]; rewrite H;
    (eexists; split; [reflexivity|]);
    unfold row_sum, PetscExpScalar; cbn [sv_vals fold_right]; dec_ring.
Qed.

(** X10. For every supported [jtype] and [epsilon <> 0] the values of the
    row of an owned interior point add up to [-hx*hy*lambda*exp(u)]: the
    diffusion part of each of the four Jacobians annihilates constant
    fields, whatever [p] and the field are. *)
Theorem jacobian_row_sum (info : DMDALocalInfo) (x : Field) (user : AppCtx)
    (B : Mat) (j i : Z) :
  supported (jtype user) ->
  epsilon user <> 0 ->
  owned info j i ->
  interior (mx info) (my info) j i ->
  exists (new : list SetValues) (c : SetValues),
    FormJacobianLocal info x user B = (mkMat (calls B ++ new) true true, inr tt)
    /\ filter (is_row j i) new = [c]
    /\ row_sum c
       = - (1 / IZR (mx info - 1) * (1 / IZR (my info - 1)) * lambda user * exp (x j i)).
Proof.
  intros Hs _ Ho Hi.
  destruct (point_calls_row_sum info x user j i Hs (on_boundary_interior _ _ _ _ Hi))
    as (c & Hc & Hsum).
  exists (all_calls info x user), c. split; [|split].
  - now apply FormJacobianLocal_supported.
  - now rewrite row_of_owned.
  - exact Hsum.
Qed.

Lemma jacobian_row_sum_witness :
  exists (new : list SetValues) (c : SetValues),
    FormJacobianLocal (whole_grid 4 4) (fun j i => IZR (j * i)) p3_ctx empty_mat
    = (mkMat (calls empty_mat ++ new) true true, inr tt)
    /\ filter (is_row 1 2) new = [c]
    /\ row_sum c = - (1 / IZR (4 - 1) * (1 / IZR (4 - 1)) * 6.0 * exp (IZR (1 * 2))).
Proof.
  apply (jacobian_row_sum (whole_grid 4 4) (fun j i => IZR (j * i)) p3_ctx empty_mat 1 2).
  - unfold supported; simpl; lia.
  - simpl. lra.
  - unfold owned; simpl; lia.
  - unfold interior; simpl; lia.
Defined.

(** An edge is seen alike from its two sides: the East edge of [(i,j)] is
    the West edge of [(i+1,j)], the North edge of [(i,j)] the South edge of
    [(i,j+1)]. *)
Lemma edge_gradients_shared (dhx dhy : R) (x : Field) (j i : Z) :
  ux_E (edge_gradients dhx dhy x j i) = ux_W (edge_gradients dhx dhy x j (i+1))
  /\ uy_E (edge_gradients dhx dhy x j i) = uy_W (edge_gradients dhx dhy x j (i+1))
  /\ ux_N (edge_gradients dhx dhy x j i) = ux_S (edge_gradients dhx dhy x (j+1) i)
  /\ uy_N (edge_gradients dhx dhy x j i) = uy_S (edge_gradients dhx dhy x (j+1) i).
Proof.
  unfold edge_gradients. cbn [ux_E uy_E ux_W uy_W ux_N uy_N ux_S uy_S].
  replace (i + 1 - 1)%Z with i by lia.
  replace (j + 1 - 1)%Z with j by lia.
  repeat split; reflexivity.
Qed.

Lemma point_calls_east_west (info : DMDALocalInfo) (x : Field) (user : AppCtx) (j i : Z) :
  jtype user = 1%Z \/ jtype user = 2%Z ->
  on_boundary (mx info) (my info) j i = false ->
  on_boundary (mx info) (my info) j (i+1) = false ->
  exists c c' : SetValues,
    point_calls info x user j i = [c]
    /\ point_calls info x user j (i+1) = [c']
    /\ entry c (mkStencil j (i+1)) = entry c' (mkStencil j i).
Proof.
  intros Hjt Hb Hb'. unfold point_calls, FormJacobian_point. cbv zeta.
  rewrite Hb, Hb'.
  destruct (edge_gradients_shared (1 / (1 / IZR (mx info - 1)))
              (1 / (1 / IZR (my info - 1))) x j i) as (Hx & Hy & _ & _).
  destruct Hjt as [H|H]; rewrite H;
    (eexists; eexists; split; [reflexivity|split; [reflexivity|]]);
    unfold entry; cbn [sv_cols sv_vals lookup_col]; unfold stencil_eqb;
    cbn [st_j st_i]; zeqb_decide; [reflexivity|].
  rewrite Hx, Hy. reflexivity.
Qed.

Lemma point_calls_south_north (info : DMDALocalInfo) (x : Field) (user : AppCtx)
    (j i : Z) :
  jtype user = 1%Z \/ jtype user = 2%Z ->
  on_boundary (mx info) (my info) j i = false ->
  on_boundary (mx info) (my info) (j+1) i = false ->
  exists c c' : SetValues,
    point_calls info x user j i = [c]
    /\ point_calls info x user (j+1) i = [c']
    /\ entry c (mkStencil (j+1) i) = entry c' (mkStencil j i).
Proof.
  intros Hjt Hb Hb'. unfold point_calls, FormJacobian_point. cbv zeta.
  rewrite Hb, Hb'.
  destruct (edge_gradients_shared (1 / (1 / IZR (mx info - 1)))
              (1 / (1 / IZR (my info - 1))) x j i) as (_ & _ & Hx & Hy).
  destruct Hjt as [H|H]; rewrite H;
    (eexists; eexists; split; [reflexivity|split; [reflexivity|]]);
    unfold entry; cbn [sv_cols sv_vals lookup_col]; unfold stencil_eqb;
    cbn [st_j st_i]; zeqb_decide; [reflexivity|].
  rewrite Hx, Hy. reflexivity.
Qed.

(** X11. With [jtype = 1] or [jtype = 2] the Jacobian is symmetric between
    neighbouring interior points: the entry of row [(i,j)] in the column of
    its East (North) neighbour equals the entry of the neighbour's row in
    the column of [(i,j)], because both use [eta] at the edge they share. *)
Theorem jacobian_picard_symmetric (info : DMDALocalInfo) (x : Field) (user : AppCtx)
    (B : Mat) (j i : Z) :
  jtype user = 1%Z \/ jtype user = 2%Z ->
  owned info j i ->
  interior (mx info) (my info) j i ->
  exists new : list SetValues,
    FormJacobianLocal info x user B = (mkMat (calls B ++ new) true true, inr tt)
    /\ (owned info j (i+1) -> interior (mx info) (my info) j (i+1) ->
        exists c c' : SetValues,
          filter (is_row j i) new = [c]
          /\ filter (is_row j (i+1)) new = [c']
          /\ entry c (mkStencil j (i+1)) = entry c' (mkStencil j i))
    /\ (owned info (j+1) i -> interior (mx info) (my info) (j+1) i ->
        exists c c' : SetValues,
          filter (is_row j i) new = [c]
          /\ filter (is_row (j+1) i) new = [c']
          /\ entry c (mkStencil (j+1) i) = entry c' (mkStencil j i)).
Proof.
  intros Hjt Ho Hi.
  assert (Hb := on_boundary_interior _ _ _ _ Hi).
  exists (all_calls info x user). split; [|split].
  - apply FormJacobianLocal_supported. unfold supported. tauto.
  - intros Ho' Hi'.
    destruct (point_calls_east_west info x user j i Hjt Hb
                (on_boundary_interior _ _ _ _ Hi')) as (c & c' & Hc & Hc' & He).
    exists c, c'. now rewrite !row_of_owned.
  - intros Ho' Hi'.
    destruct (point_calls_south_north info x user j i Hjt Hb
                (on_boundary_interior _ _ _ _ Hi')) as (c & c' & Hc & Hc' & He).
    exists c, c'. now rewrite !row_of_owned.
Qed.

Lemma jacobian_picard_symmetric_witness :
  exists (new : list SetValues) (c c' : SetValues),
    FormJacobianLocal (whole_grid 5 5) (fun j i => IZR (j * i * i))
      (mkAppCtx 6.0 3 1e-5 2) empty_mat
    = (mkMat (calls empty_mat ++ new) true true, inr tt)
    /\ filter (is_row 2 1) new = [c]
    /\ filter (is_row 2 (1 + 1)) new = [c']
    /\ entry c (mkStencil 2 (1 + 1)) = entry c' (mkStencil 2 1).
Proof.
  destruct (jacobian_picard_symmetric (whole_grid 5 5) (fun j i => IZR (j * i * i))
              (mkAppCtx 6.0 3 1e-5 2) empty_mat 2 1) as (new & Hrun & Hew & _).
  - right. reflexivity.
  - unfold owned; simpl; lia.
  - unfold interior; simpl; lia.
  - destruct Hew as (c & c' & H1 & H2 & H3).
    + unfold owned; simpl; lia.
    + unfold interior; simpl; lia.
    + exists new, c, c'. repeat split; assumption.
Defined.

(** ** The shape of an assembly *)

(** Column [col] is the centre or one of its eight neighbours. *)
Definition in_box (j i : Z) (col : MatStencil) : Prop :=
  (j - 1 <= st_j col <= j + 1)%Z /\ (i - 1 <= st_i col <= i + 1)%Z.

(** Column [col] is the centre or one of its four axis neighbours. *)
Definition in_star (j i : Z) (col : MatStencil) : Prop :=
  in_box j i col /\ (st_j col = j \/ st_i col = i).

(** What every call of a successful assembly looks like. *)
Definition well_shaped (info : DMDALocalInfo) (user : AppCtx) (c : SetValues) : Prop :=
  let j := st_j (sv_row c) in
  let i := st_i (sv_row c) in
  Forall (in_box j i) (sv_cols c)
  /\ (jtype user <> 4%Z -> Forall (in_star j i) (sv_cols c))
  /\ NoDup (sv_cols c)
  /\ List.length (sv_vals c) = List.length (sv_cols c)
  /\ In (sv_row c) (sv_cols c).

Ltac stencil_facts :=
  repeat match goal with
    | |- Forall _ (_ :: _) => constructor
    | |- Forall _ [] => constructor
    | |- NoDup (_ :: _) => constructor
    | |- NoDup [] => constructor
    | |- in_star _ _ _ => unfold in_star
    | |- in_box _ _ _ => unfold in_box; cbn [st_j st_i]; lia
    | |- _ /\ _ => split
    | |- ~ In _ _ => cbn [In]; intros Hin;
                     repeat (destruct Hin as [Hin|Hin]; [inversion Hin; lia|]);
                     exact Hin
    | |- _ \/ _ => cbn [st_j st_i]; lia
    end.

Lemma point_calls_shape (info : DMDALocalInfo) (x : Field) (user : AppCtx) (j i : Z) :
  supported (jtype user) ->
  exists c : SetValues,
    point_calls info x user j i = [c]
    /\ sv_row c = mkStencil j i
    /\ well_shaped info user c.
Proof.
  intros Hs. unfold point_calls, FormJacobian_point. cbv zeta.
  destruct (on_boundary (mx info) (my info) j i).
  - eexists. split; [reflexivity|]. split; [reflexivity|].
    unfold well_shaped. cbn [sv_row sv_cols sv_vals st_j st_i List.length].
    split; [stencil_facts|].
    split; [intros _; stencil_facts|].
    split; [stencil_facts|].
    split; [reflexivity|]. now left.
  - destruct Hs as [H|[H|[H|H]]]; rewrite H;
      (eexists; split; [reflexivity|]; split; [reflexivity|]);
      unfold well_shaped; cbn [sv_row sv_cols sv_vals st_j st_i List.length];
      (split; [stencil_facts|]);
      (split; [intros Hne; try (now elim Hne); stencil_facts|]);
      (split; [stencil_facts|]);
      (split; [reflexivity|]); cbn [In]; tauto.
Qed.

Lemma all_calls_Forall (info : DMDALocalInfo) (x : Field) (user : AppCtx)
    (Q : SetValues -> Prop) :
  (forall j i, owned info j i -> Forall Q (point_calls info x user j i)) ->
  Forall Q (all_calls info x user).
Proof.
  intros H. unfold all_calls.
  apply Forall_flat_map, Forall_forall. intros j Hj.
  apply Forall_flat_map, Forall_forall. intros i Hi.
  apply zrange_In in Hj. apply zrange_In in Hi.
  apply H. unfold owned. lia.
Qed.

Lemma filter_none {A : Type} (P : A -> bool) (l : list A) :
  Forall (fun a => P a = false) l -> filter P l = [].
Proof.
  induction 1 as [|a l Ha _ IH]; cbn [filter]; [reflexivity|].
  now rewrite Ha.
Qed.

(** X12. A successful assembly with a supported [jtype] sets one row for
    each owned point and no other row: the calls for row [(i,j)] are one
    call if the point is owned and none otherwise; the matrix ends
    assembled with new nonzero locations forbidden, and the calls it had
    received before are kept. *)
Theorem jacobian_one_row_per_owned_point (info : DMDALocalInfo) (x : Field)
    (user : AppCtx) (B : Mat) :
  supported (jtype user) ->
  exists new : list SetValues,
    FormJacobianLocal info x user B = (mkMat (calls B ++ new) true true, inr tt)
    /\ (forall j i, owned info j i -> List.length (filter (is_row j i) new) = 1%nat)
    /\ (forall j i, ~ owned info j i -> filter (is_row j i) new = [])
    /\ Forall (fun c => owned info (st_j (sv_row c)) (st_i (sv_row c))) new.
Proof.
  intros Hs.
  assert (Hrows : Forall (fun c => owned info (st_j (sv_row c)) (st_i (sv_row c)))
                    (all_calls info x user)).
  { apply all_calls_Forall. intros j i Ho.
    destruct (point_calls_shape info x user j i Hs) as (c & Hc & Hrow & _).
    rewrite Hc. constructor; [|constructor]. now rewrite Hrow. }
  exists (all_calls info x user). split; [|split; [|split]].
  - now apply FormJacobianLocal_supported.
  - intros j i Ho. rewrite row_of_owned by assumption.
    destruct (point_calls_shape info x user j i Hs) as (c & Hc & _).
    now rewrite Hc.
  - intros j i Hn. apply filter_none.
    eapply Forall_impl; [|exact Hrows].
    intros c Ho. unfold is_row.
    destruct (Z.eqb_spec (st_j (sv_row c)) j) as [Hj|]; [|reflexivity].
    destruct (Z.eqb_spec (st_i (sv_row c)) i) as [Hi|]; [|reflexivity].
    subst. contradiction.
  - exact Hrows.
Qed.

Lemma jacobian_one_row_per_owned_point_witness :
  exists new : list SetValues,
    FormJacobianLocal (mkInfo 6 6 3 0 3 6) (fun j i => IZR (j * i)) p3_ctx empty_mat
    = (mkMat (calls empty_mat ++ new) true true, inr tt)
    /\ List.length (filter (is_row 2 4) new) = 1%nat
    /\ filter (is_row 2 1) new = [].
Proof.
  destruct (jacobian_one_row_per_owned_point (mkInfo 6 6 3 0 3 6)
              (fun j i => IZR (j * i)) p3_ctx empty_mat)
    as (new & Hrun & Hin & Hout & _).
  - unfold supported; simpl; lia.
  - exists new. split; [exact Hrun|]. split.
    + apply Hin. unfold owned; simpl; lia.
    + apply Hout. unfold owned; simpl; lia.
Defined.

(** X13. In a successful assembly every call keeps to the stencil: its
    columns are distinct grid points of the 3 x 3 block around its row and
    contain the row itself, there are as many values as columns, and for
    [jtype] 1, 2 and 3 the columns lie on the five point star, so only
    [jtype = 4] needs the box pattern. *)
Theorem jacobian_sparsity_pattern (info : DMDALocalInfo) (x : Field)
    (user : AppCtx) (B : Mat) :
  supported (jtype user) ->
  exists new : list SetValues,
    FormJacobianLocal info x user B = (mkMat (calls B ++ new) true true, inr tt)
    /\ Forall (well_shaped info user) new.
Proof.
  intros Hs. exists (all_calls info x user). split.
  - now apply FormJacobianLocal_supported.
  - apply all_calls_Forall. intros j i _.
    destruct (point_calls_shape info x user j i Hs) as (c & Hc & _ & Hshape).
    rewrite Hc. constructor; [exact Hshape|constructor].
Qed.

Lemma jacobian_sparsity_pattern_witness :
  exists new : list SetValues,
    FormJacobianLocal (whole_grid 4 4) (fun j i => IZR (j * i))
      (mkAppCtx 6.0 3 1e-5 3) empty_mat
    = (mkMat (calls empty_mat ++ new) true true, inr tt)
    /\ Forall (well_shaped (whole_grid 4 4) (mkAppCtx 6.0 3 1e-5 3)) new.
Proof.
  apply (jacobian_sparsity_pattern (whole_grid 4 4) (fun j i => IZR (j * i))
           (mkAppCtx 6.0 3 1e-5 3) empty_mat).
  unfold supported; simpl; lia.
Defined.

(** ** A failing assembly *)

(** The identity row of a boundary point. *)
Definition identity_row (info : DMDALocalInfo) (c : SetValues) : Prop :=
  sv_cols c = [sv_row c] /\ sv_vals c = [1]
  /\ boundary (mx info) (my info) (st_j (sv_row c)) (st_i (sv_row c)).

(** [m] only adds calls satisfying [P], touches no flag, and can fail with
    [e] only. *)
Definition adds_only (P : SetValues -> Prop) (e : PetscError) (m : PetscM unit) : Prop :=
  forall B : Mat,
    exists new : list SetValues,
      fst (m B) = mkMat (calls B ++ new) (assembled B) (new_nonzero_location_err B)
      /\ Forall P new
      /\ (snd (m B) = inr tt \/ snd (m B) = inl e).

Lemma adds_only_bind (P : SetValues -> Prop) (e : PetscError) (m k : PetscM unit) :
  adds_only P e m -> adds_only P e k -> adds_only P e (m ;; k).
Proof.
  intros Hm Hk B. unfold bind.
  destruct (Hm B) as (new & Hfst & HP & Hsnd).
  destruct (m B) as [B' [e'|[]]]; cbn [fst snd] in *.
  - exists new. split; [assumption|]. split; [assumption|].
    destruct Hsnd as [Hsnd|Hsnd]; [discriminate|now right].
  - destruct (Hk B') as (new' & Hfst' & HP' & Hsnd').
    exists (new ++ new'). split; [|split].
    + rewrite Hfst', Hfst. cbn [calls assembled new_nonzero_location_err].
      now rewrite app_assoc.
    + apply Forall_app. now split.
    + exact Hsnd'.
Qed.

Lemma adds_only_forM (P : SetValues -> Prop) (e : PetscError) (body : Z -> PetscM unit) :
  (forall k, adds_only P e (body k)) ->
  forall (n : nat) (lo : Z), adds_only P e (forM_count n lo body).
Proof.
  intros Hb. induction n as [|n IH]; intros lo.
  - intros B. exists []. cbn [forM_count]. unfold ret. cbn [fst snd].
    rewrite app_nil_r. split; [now destruct B|]. split; [constructor|now left].
  - cbn [forM_count]. apply adds_only_bind; [apply Hb|apply IH].
Qed.

Lemma adds_only_point (info : DMDALocalInfo) (x : Field) (user : AppCtx) (j i : Z) :
  ~ supported (jtype user) ->
  adds_only (identity_row info) (unsupported (jtype user))
    (FormJacobian_point info x user j i).
Proof.
  intros Hs B.
  destruct (on_boundary (mx info) (my info) j i) eqn:E.
  - apply on_boundary_true in E.
    exists [mkSetValues (mkStencil j i) [mkStencil j i] [1]].
    rewrite (point_boundary info x user j i E B). cbn [fst snd].
    split; [reflexivity|]. split; [|now left].
    constructor; [|constructor]. unfold identity_row. cbn [sv_row sv_cols sv_vals st_j st_i].
    repeat split. exact E.
  - exists []. split; [|split; [constructor|]].
    + unfold FormJacobian_point. cbv zeta. rewrite E, jtype_switch.
      unfold supported in Hs.
      zcases; try lia.
      cbn [SETERRQ1 fst]. rewrite app_nil_r. now destruct B.
    + right. now apply point_unsupported.
Qed.

(** X14. When the assembly fails, the [jtype] is unsupported and the error
    is the one of the [default] branch; the matrix is left unassembled:
    neither the assembly flag nor the new-nonzero-location option has
    changed, the earlier calls are kept, and the only rows set before the
    failure are identity rows of boundary points (no interior row is ever
    written with an unsupported [jtype]). *)
Theorem jacobian_failure_state (info : DMDALocalInfo) (x : Field) (user : AppCtx)
    (B : Mat) (e : PetscError) :
  snd (FormJacobianLocal info x user B) = inl e ->
  ~ supported (jtype user)
  /\ e = unsupported (jtype user)
  /\ assembled (fst (FormJacobianLocal info x user B)) = assembled B
  /\ new_nonzero_location_err (fst (FormJacobianLocal info x user B))
     = new_nonzero_location_err B
  /\ exists new : list SetValues,
       calls (fst (FormJacobianLocal info x user B)) = calls B ++ new
       /\ Forall (identity_row info) new.
Proof.
  intros He.
  assert (Hns : ~ supported (jtype user)).
  { intros Hs. rewrite (FormJacobianLocal_supported info x user B Hs) in He.
    discriminate He. }
  split; [exact Hns|].
  assert (Hloops : adds_only (identity_row info) (unsupported (jtype user))
             (forM_range (ys info) (ym info)
                (fun j => forM_range (xs info) (xm info)
                            (fun i => FormJacobian_point info x user j i)))).
  { unfold forM_range. apply adds_only_forM. intros j.
    apply adds_only_forM. intros i. now apply adds_only_point. }
  destruct (Hloops B) as (new & Hfst & HP & Hsnd).
  unfold FormJacobianLocal, bind in *.
  destruct (forM_range (ys info) (ym info)
              (fun j => forM_range (xs info) (xm info)
                          (fun i => FormJacobian_point info x user j i)) B)
    as [B' [e'|[]]]; cbn [fst snd] in *.
  - destruct Hsnd as [Hsnd|Hsnd]; [discriminate|].
    split; [congruence|]. subst B'. cbn [assembled new_nonzero_location_err calls].
    split; [reflexivity|]. split; [reflexivity|].
    exists new. split; [reflexivity|assumption].
  - discriminate He.
Qed.

Lemma jacobian_failure_state_witness :
  assembled (fst (FormJacobianLocal (whole_grid 4 4) zero_field
                    (mkAppCtx 6.0 2 1e-5 0) empty_mat)) = false.
Proof.
  assert (He : snd (FormJacobianLocal (whole_grid 4 4) zero_field
                      (mkAppCtx 6.0 2 1e-5 0) empty_mat) = inl (unsupported 0))
    by reflexivity.
  destruct (jacobian_failure_state (whole_grid 4 4) zero_field
              (mkAppCtx 6.0 2 1e-5 0) empty_mat (unsupported 0) He) as (_ & _ & Ha & _).
  exact Ha.
Defined.

(** ** The row depends on the stencil only *)

Lemma point_calls_local (info : DMDALocalInfo) (x y : Field) (user : AppCtx) (j i : Z) :
  agree_on_stencil x y j i ->
  point_calls info x user j i = point_calls info y user j i.
Proof.
  intros H. unfold point_calls, FormJacobian_point. cbv zeta.
  rewrite (edge_gradients_local _ _ x y j i H).
  rewrite (agree_on_stencil_at x y j i j i H) by lia.
  reflexivity.
Qed.

(** X15. The row of an owned point reads the field on the 3 x 3 block
    around the point only: for two fields that agree there, the calls made
    for that row are the same, for every supported [jtype]. *)
Theorem jacobian_row_local (info : DMDALocalInfo) (x y : Field) (user : AppCtx)
    (B : Mat) (j i : Z) :
  supported (jtype user) ->
  owned info j i ->
  agree_on_stencil x y j i ->
  exists newx newy : list SetValues,
    FormJacobianLocal info x user B = (mkMat (calls B ++ newx) true true, inr tt)
    /\ FormJacobianLocal info y user B = (mkMat (calls B ++ newy) true true, inr tt)
    /\ filter (is_row j i) newx = filter (is_row j i) newy.
Proof.
  intros Hs Ho H.
  exists (all_calls info x user), (all_calls info y user).
  split; [now apply FormJacobianLocal_supported|].
  split; [now apply FormJacobianLocal_supported|].
  rewrite !row_of_owned by assumption. now apply point_calls_local.
Qed.

Lemma jacobian_row_local_witness :
  exists newx newy : list SetValues,
    FormJacobianLocal (whole_grid 6 6) (fun j i => IZR (j * i)) p3_ctx empty_mat
    = (mkMat (calls empty_mat ++ newx) true true, inr tt)
    /\ FormJacobianLocal (whole_grid 6 6) (store (fun j i => IZR (j * i)) 4 2 100)
         p3_ctx empty_mat
       = (mkMat (calls empty_mat ++ newy) true true, inr tt)
    /\ filter (is_row 2 2) newx = filter (is_row 2 2) newy.
Proof.
  apply (jacobian_row_local (whole_grid 6 6) (fun j i => IZR (j * i))
           (store (fun j i => IZR (j * i)) 4 2 100) p3_ctx empty_mat 2 2).
  - unfold supported; simpl; lia.
  - unfold owned; simpl; lia.
  - intros dj di Hj Hi. symmetry. apply store_other. lia.
Defined.

(** ** The linear problem is linearised exactly by every mode *)

(** The residual of the linear problem away from the boundary. *)
Definition laplace_residual (info : DMDALocalInfo) (user : AppCtx) (x : Field)
    (j i : Z) : R :=
  (1 / IZR (my info - 1)) / (1 / IZR (mx info - 1))
    * (2 * x j i - x j (i+1)%Z - x j (i-1)%Z)
  + (1 / IZR (mx info - 1)) / (1 / IZR (my info - 1))
    * (2 * x j i - x (j+1)%Z i - x (j-1)%Z i)
  - 1 / IZR (mx info - 1) * (1 / IZR (my info - 1)) * lambda user
    * PetscExpScalar (x j i).

Lemma FormFunction_point_p2_off_boundary (info : DMDALocalInfo) (x : Field)
    (user : AppCtx) (j i : Z) :
  p user = 2 ->
  on_boundary (mx info) (my info) j i = false ->
  FormFunction_point info x user j i = laplace_residual info user x j i.
Proof.
  intros Hp Hb. unfold FormFunction_point, laplace_residual. rewrite Hb.
  cbv zeta. rewrite !eta_p2 by assumption.
  unfold edge_gradients.
  cbn [ux_E uy_E ux_W uy_W ux_N uy_N ux_S uy_S].
  unfold Rdiv. ring.
Qed.

(** Differentiate an expression built from values of a perturbed field. *)
Ltac derive_store :=
  repeat first
    [ apply D_const
    | apply D_store
    | apply D_exp
    | apply D_plus
    | apply D_minus
    | apply D_opp
    | apply D_mult ].

Lemma residual_partial_p2 (info : DMDALocalInfo) (x f : Field) (user : AppCtx)
    (j i : Z) (col : MatStencil) :
  p user = 2 ->
  owned info j i ->
  derivable_pt_lim
    (fun r => FormFunctionLocal info (store x (st_j col) (st_i col) r) f user j i)
    (x (st_j col) (st_i col))
    (entry (laplace_row info x user j i) col).
Proof.
  intros Hp Ho.
  destruct (on_boundary (mx info) (my info) j i) eqn:Hb.
  - apply derivable_pt_lim_ext
      with (f := fun r => store x (st_j col) (st_i col) r j i).
    { intros r. rewrite FormFunctionLocal_owned by assumption.
      symmetry. apply FormFunction_point_boundary. now apply on_boundary_true. }
    eapply D_eq; [apply D_store|].
    unfold entry, laplace_row. rewrite Hb.
    cbn [sv_cols sv_vals lookup_col]. unfold stencil_eqb.
    cbn [st_j st_i]. reflexivity.
  - apply derivable_pt_lim_ext
      with (f := fun r =>
                   laplace_residual info user (store x (st_j col) (st_i col) r) j i).
    { intros r. rewrite FormFunctionLocal_owned by assumption.
      symmetry. now apply FormFunction_point_p2_off_boundary. }
    unfold laplace_residual.
    eapply D_eq; [derive_store|].
    cbv beta. rewrite !store_id.
    unfold entry, laplace_row, PetscExpScalar. rewrite Hb. cbv zeta.
    cbn [sv_cols sv_vals lookup_col]. unfold stencil_eqb.
    cbn [st_j st_i].
    zcases; try lia; unfold Rdiv; ring.
Qed.

(** X16. With [p = 2] every supported [jtype] assembles the exact Jacobian
    of the residual, for every [epsilon] (zero included) and at boundary
    and interior rows alike: the entry of the row of an owned point in any
    column, [0] where the call sets none, is the partial derivative of the
    residual at the point in the field value of that column. *)
Theorem jacobian_exact_p2 (info : DMDALocalInfo) (x f : Field) (user : AppCtx)
    (B : Mat) (j i : Z) :
  p user = 2 ->
  supported (jtype user) ->
  owned info j i ->
  exists (new : list SetValues) (c : SetValues),
    FormJacobianLocal info x user B = (mkMat (calls B ++ new) true true, inr tt)
    /\ filter (is_row j i) new = [c]
    /\ forall col : MatStencil,
         derivable_pt_lim
           (fun r => FormFunctionLocal info (store x (st_j col) (st_i col) r) f user j i)
           (x (st_j col) (st_i col))
           (entry c col).
Proof.
  intros Hp Hs Ho.
  destruct (point_calls_p2 info x user j i Hp Hs) as (c & Hc & He & _).
  exists (all_calls info x user), c. split; [|split].
  - now apply FormJacobianLocal_supported.
  - now rewrite row_of_owned.
  - intros col. rewrite He. now apply residual_partial_p2.
Qed.

Lemma jacobian_exact_p2_witness :
  exists (new : list SetValues) (c : SetValues),
    FormJacobianLocal (whole_grid 4 4) (fun j i => IZR (j * i))
      (mkAppCtx 6.0 2 0 3) empty_mat
    = (mkMat (calls empty_mat ++ new) true true, inr tt)
    /\ filter (is_row 1 2) new = [c]
    /\ derivable_pt_lim
         (fun r => FormFunctionLocal (whole_grid 4 4)
                     (store (fun j i => IZR (j * i)) 1 3 r) zero_field
                     (mkAppCtx 6.0 2 0 3) 1%Z 2%Z)
         (IZR (1 * 3))
         (entry c (mkStencil 1 3)).
Proof.
  destruct (jacobian_exact_p2 (whole_grid 4 4) (fun j i => IZR (j * i)) zero_field
              (mkAppCtx 6.0 2 0 3) empty_mat 1 2) as (new & c & Hrun & Hrow & HD).
  - reflexivity.
  - unfold supported; simpl; lia.
  - unfold owned; simpl; lia.
  - exists new, c. split; [exact Hrun|]. split; [exact Hrow|].
    exact (HD (mkStencil 1 3)).
Defined.

(** ** The diffusivity and its derivative *)

(** X17. For [epsilon <> 0], [deta] is the derivative of [eta] with respect
    to half the squared gradient: the partial derivatives of [eta ux uy]
    are [deta ux uy * ux] in [ux] and [deta ux uy * uy] in [uy], for every
    [p] (the test [p == 2] in [deta] only short-cuts a zero). *)
Theorem deta_is_derivative_of_eta (ctx : AppCtx) (ux uy : R) :
  epsilon ctx <> 0 ->
  derivable_pt_lim (fun s => eta ctx s uy) ux (deta ctx ux uy * ux)
  /\ derivable_pt_lim (fun s => eta ctx ux s) uy (deta ctx ux uy * uy).
Proof.
  intros He. split.
  - eapply D_eq.
    + apply (D_eta ctx He (fun s => s) (fun _ => uy)); [apply D_id | apply D_const].
    + cbv beta. ring.
  - eapply D_eq.
    + apply (D_eta ctx He (fun _ => ux) (fun s => s)); [apply D_const | apply D_id].
    + cbv beta. ring.
Qed.

Lemma deta_is_derivative_of_eta_witness :
  derivable_pt_lim (fun s => eta p3_ctx s 4) 3 (deta p3_ctx 3 4 * 3).
Proof.
  destruct (deta_is_derivative_of_eta p3_ctx 3 4) as [H _].
  - simpl. lra.
  - exact H.
Defined.

(** ** A process that owns no grid point *)

Lemma appends_ret : appends (ret tt) [].
Proof. intros B. unfold ret. rewrite app_nil_r. now destruct B. Qed.

(** X21. When the owned box is empty ([xm <= 0] or [ym <= 0]) the Jacobian
    callback makes no call at all and succeeds whatever [jtype] is, even an
    unsupported one; it still finishes the assembly and sets the
    new-nonzero-location option. *)
Theorem jacobian_empty_box (info : DMDALocalInfo) (x : Field) (user : AppCtx) (B : Mat) :
  (xm info <= 0)%Z \/ (ym info <= 0)%Z ->
  FormJacobianLocal info x user B = (mkMat (calls B) true true, inr tt).
Proof.
  intros Hempty.
  assert (Hloops : appends
            (forM_range (ys info) (ym info)
               (fun j => forM_range (xs info) (xm info)
                           (fun i => FormJacobian_point info x user j i)))
            []).
  { destruct Hempty as [Hx|Hy].
    - unfold forM_range.
      replace (@nil SetValues)
        with (flat_map (fun _ : Z => @nil SetValues)
                (zrange (ys info) (Z.to_nat (ym info))))
        by (apply flat_map_nil; reflexivity).
      apply appends_forM. intros j _.
      replace (Z.to_nat (xm info)) with 0%nat by lia.
      apply appends_ret.
    - unfold forM_range. replace (Z.to_nat (ym info)) with 0%nat by lia.
      apply appends_ret. }
  unfold FormJacobianLocal, bind. rewrite Hloops.
  cbn [MatAssembly MatSetOption_NEW_NONZERO_LOCATION_ERR calls assembled
       new_nonzero_location_err].
  now rewrite app_nil_r.
Qed.

Lemma jacobian_empty_box_witness :
  FormJacobianLocal (mkInfo 4 4 0 0 0 4) zero_field (mkAppCtx 6.0 2 1e-5 9) empty_mat
  = (mkMat (calls empty_mat) true true, inr tt).
Proof.
  apply (jacobian_empty_box (mkInfo 4 4 0 0 0 4) zero_field (mkAppCtx 6.0 2 1e-5 9)
           empty_mat).
  left. simpl. lia.
Defined.

(** ** Shifting the field by a constant *)

Lemma edge_gradients_shift (dhx dhy : R) (x : Field) (k : R) (j i : Z) :
  edge_gradients dhx dhy (fun j' i' => x j' i' + k) j i = edge_gradients dhx dhy x j i.
Proof. unfold edge_gradients. f_equal; ring. Qed.

(** X22. The flux part of the residual sees differences of the field only:
    adding a constant [k] to the whole field changes the residual at an
    owned interior point by the reaction term alone, from
    [-hx*hy*lambda*exp(u)] to [-hx*hy*lambda*exp(u + k)]. *)
Theorem residual_shift (info : DMDALocalInfo) (x f : Field) (user : AppCtx)
    (k : R) (j i : Z) :
  owned info j i ->
  interior (mx info) (my info) j i ->
  let sc := 1 / IZR (mx info - 1) * (1 / IZR (my info - 1)) * lambda user in
  FormFunctionLocal info (fun j' i' => x j' i' + k) f user j i
  = FormFunctionLocal info x f user j i
    + sc * exp (x j i) - sc * exp (x j i + k).
Proof.
  intros Ho Hi sc.
  rewrite !FormFunctionLocal_owned by assumption.
  unfold FormFunction_point. cbv zeta.
  rewrite (on_boundary_interior _ _ _ _ Hi).
  rewrite edge_gradients_shift.
  unfold PetscExpScalar, sc. ring.
Qed.

Lemma residual_shift_witness :
  FormFunctionLocal (whole_grid 4 4) (fun j i => IZR (j * i) + 5) zero_field
    p3_ctx 1%Z 2%Z
  = FormFunctionLocal (whole_grid 4 4) (fun j i => IZR (j * i)) zero_field
      p3_ctx 1%Z 2%Z
    + 1 / IZR (4 - 1) * (1 / IZR (4 - 1)) * lambda p3_ctx * exp (IZR (1 * 2))
    - 1 / IZR (4 - 1) * (1 / IZR (4 - 1)) * lambda p3_ctx * exp (IZR (1 * 2) + 5).
Proof.
  apply (residual_shift (whole_grid 4 4) (fun j i => IZR (j * i)) zero_field
           p3_ctx 5 1 2).
  - unfold owned; simpl; lia.
  - unfold interior; simpl; lia.
Defined.
